(** * OrderedList: a sorted singly-linked list with a sentinel head

  Shallow embedding of [src/orderedlist.h] (namespace [test], class
  template [OrderedList<T, Comparator>]) and of the comparator used by
  [src/orderedlist_test.cc].

  Memory is an explicit heap of nodes.  A [Node*] is an [option] of an
  address ([None] is [nullptr]); [new Node(k)] allocates at the end of the
  heap.  Every function that dereferences a pointer returns in [Res], so a
  null dereference, a failed [assert] and a loop that does not come to an
  end are results one can state theorems about. *)

From Stdlib Require Import ZArith Lia List Sorted.
From stdpp Require Import base option list sorting.

(** ** Results of partial operations *)

Inductive Fault : Type :=
| NullDeref      (* [p->...] with [p == nullptr] *)
| WildPointer    (* [p->...] with [p] outside the heap *)
| AssertFail     (* an [assert(...)] that does not hold, without NDEBUG *)
| OutOfFuel.     (* a [while] loop that did not stop within its bound *)

Inductive Res (A : Type) : Type :=
| Ok (a : A)
| Err (f : Fault).

Arguments Ok {A} a.
Arguments Err {A} f.

Definition bind {A B : Type} (m : Res A) (k : A -> Res B) : Res B :=
match m with
| Ok a => k a
| Err f => Err f
end.

Declare Scope res_scope.
Delimit Scope res_scope with res.
Notation "'let*' p ':=' m 'in' k" := (bind m (fun p => k))
(at level 10, p pattern, m at level 100, k at level 200) : res_scope.
Open Scope res_scope.

Definition is_ok {A : Type} (m : Res A) : bool :=
match m with Ok _ => true | Err _ => false end.

(** ** Pointers *)

Definition addr := nat.
Definition ptr := option addr.

Definition ptr_eqb (p q : ptr) : bool := bool_decide (p = q).

(** ** The instance of the test program

  [test::OrderedList<uint32_t, Comparator>] with
  [Comparator::operator()(a, b)]: [-1] if [a < b], else
  [static_cast<int>(a != b)].  A [uint32_t] is a [Z] in [0, 2^32); the
  comparator does no arithmetic, so nothing wraps. *)
Module U32.

Definition uint32 := Z.

Definition in_range (a : uint32) : Prop := (0 <= a < 2 ^ 32)%Z.

Definition Comparator (a b : uint32) : Z :=
  if (a <? b)%Z then (-1)%Z
  else if negb (a =? b)%Z then 1%Z else 0%Z.

(** The keys [main] inserts. *)
Definition main_keys : list uint32 :=
  [342; 413; 4552; 65; 512; 1; 31435]%Z.

End U32.

Section OrderedList.

(** The template parameters: the key type, the comparator object
    ([compare_(a, b)] is negative, zero or positive), and the key [T(0)]
    that [NewNode(0)] stores in the head.  [NDEBUG] says whether [assert]
    is compiled out. *)
Variable T : Type.
Variable compare_ : T -> T -> Z.
Variable zero : T.
Variable NDEBUG : bool.

(** [struct Node { T key; std::atomic<Node*> next_; }] *)
Record Node : Type := mkNode { key : T; next_ : ptr }.

Abbreviation Heap := (list Node).

(** [class Iterator { const OrderedList* list_; Node* node_; }]: the list
    is passed to each operation, [node_] is the position. *)
Record Iterator : Type := mkIterator { node_ : ptr }.

(** [class OrderedList], with the heap its nodes live in. *)
Record OrderedList : Type := mkList {
  heap : Heap;
  begin_ : Iterator;
  end_ : Iterator;
  head_ : ptr
}.

(** *** Node *)

Definition deref (h : Heap) (p : ptr) : Res Node :=
  match p with
  | None => Err NullDeref
  | Some a =>
      match h !! a with
      | Some n => Ok n
      | None => Err WildPointer
      end
  end.

(** [next_.load(acquire)] and [next_.load(relaxed)]: one thread, so both
    read the field. *)
Definition Node_Next (h : Heap) (p : ptr) : Res ptr :=
  let* n := deref h p in Ok (next_ n).

Definition Node_NoBarrierNext (h : Heap) (p : ptr) : Res ptr :=
  let* n := deref h p in Ok (next_ n).

(** [next_.store(x, release)] and [next_.store(x, relaxed)]. *)
Definition Node_SetNext (h : Heap) (p : ptr) (x : ptr) : Res Heap :=
  match p with
  | None => Err NullDeref
  | Some a =>
      match h !! a with
      | Some n => Ok (<[a := mkNode (key n) x]> h)
      | None => Err WildPointer
      end
  end.

Definition Node_NoBarrierSetNext (h : Heap) (p : ptr) (x : ptr) : Res Heap :=
  Node_SetNext h p x.

(** [NewNode(key)]: [new Node(key)].  The constructor leaves [next_]
    unset; both callers store to it before any load. *)
Definition NewNode (h : Heap) (k : T) : Heap * ptr :=
  (h ++ [mkNode k None], Some (length h)).

(** [assert(e)]: not evaluated under NDEBUG. *)
Definition assert_ (e : Res bool) : Res unit :=
  if NDEBUG then Ok tt
  else let* b := e in if b then Ok tt else Err AssertFail.

(** *** Private helpers of OrderedList *)

Definition Equal (a b : T) : bool := (compare_ a b =? 0)%Z.

Definition KeyIsAfterNode (h : Heap) (k : T) (n : ptr) : Res bool :=
  match n with
  | None => Ok false
  | Some _ => let* nd := deref h n in Ok (compare_ (key nd) k <? 0)%Z
  end.

(** The loop of [FindGreaterOrEqual].  [prev : option ptr] is the
    [Node** prev] argument: [None] when the caller passes [nullptr],
    [Some v] when it points to a variable that holds [v]. *)
Fixpoint FindGreaterOrEqual_loop (fuel : nat) (h : Heap) (k : T)
    (x : ptr) (prev : option ptr) : Res (ptr * option ptr) :=
  match fuel with
  | O => Err OutOfFuel
  | S fuel' =>
      match x with
      | None => Ok (x, prev)
      | Some _ =>
          let* b := KeyIsAfterNode h k x in
          if b then
            let prev' := match prev with
                         | None => None
                         | Some _ => Some x
                         end in
            let* x' := Node_Next h x in
            FindGreaterOrEqual_loop fuel' h k x' prev'
          else Ok (x, prev)
      end
  end.

(** The loop of [FindLessThan]: the test reads [x->Next()->key]. *)
Fixpoint FindLessThan_loop (fuel : nat) (h : Heap) (k : T) (x : ptr)
    : Res ptr :=
  match fuel with
  | O => Err OutOfFuel
  | S fuel' =>
      match x with
      | None => Ok x
      | Some _ =>
          let* nx := Node_Next h x in
          let* nd := deref h nx in
          if (compare_ (key nd) k <? 0)%Z then
            let* x' := Node_Next h x in
            FindLessThan_loop fuel' h k x'
          else Ok x
      end
  end.

Fixpoint FindLast_loop (fuel : nat) (h : Heap) (x : ptr) : Res ptr :=
  match fuel with
  | O => Err OutOfFuel
  | S fuel' =>
      match x with
      | None => Ok x
      | Some _ =>
          let* nx := Node_Next h x in
          match nx with
          | None => Ok x
          | Some _ =>
              let* x' := Node_Next h x in
              FindLast_loop fuel' h x'
          end
      end
  end.

(** A walk over an acyclic chain visits each node of the heap at most
    once, so this many iterations are enough for every loop below. *)
Definition loop_bound (l : OrderedList) : nat := S (length (heap l)).

Definition FindGreaterOrEqual (l : OrderedList) (k : T) (prev : option ptr)
    : Res (ptr * option ptr) :=
  FindGreaterOrEqual_loop (loop_bound l) (heap l) k (head_ l) prev.

Definition FindLessThan (l : OrderedList) (k : T) : Res ptr :=
  FindLessThan_loop (loop_bound l) (heap l) k (head_ l).

Definition FindLast (l : OrderedList) : Res ptr :=
  FindLast_loop (loop_bound l) (heap l) (head_ l).

(** *** Iterator *)

Definition Iterator_new : Iterator := mkIterator None.

Definition Valid (it : Iterator) : bool :=
  match node_ it with
  | None => false
  | Some _ => true
  end.

Definition Iterator_key (l : OrderedList) (it : Iterator) : Res T :=
  let* _ := assert_ (Ok (Valid it)) in
  let* n := deref (heap l) (node_ it) in
  Ok (key n).

Definition Next (l : OrderedList) (it : Iterator) : Res Iterator :=
  let* _ := assert_ (Ok (Valid it)) in
  let* p := Node_Next (heap l) (node_ it) in
  Ok (mkIterator p).

Definition Prev (l : OrderedList) (it : Iterator) : Res Iterator :=
  let* _ := assert_ (Ok (Valid it)) in
  let* n := deref (heap l) (node_ it) in
  let* p := FindLessThan l (key n) in
  if ptr_eqb p (head_ l) then Ok (mkIterator None) else Ok (mkIterator p).

(** Modelled from the spec: [Iterator::Seek] is declared in the class
    (line 33 of the header) but the header has no definition of it; the
    design says it positions the iterator at
    [FindGreaterOrEqual(target, null)]. *)
Definition Seek (l : OrderedList) (it : Iterator) (target : T)
    : Res Iterator :=
  let* (p, _) := FindGreaterOrEqual l target None in
  Ok (mkIterator p).

Definition SeekToFirst (l : OrderedList) (it : Iterator) : Res Iterator :=
  let* p := Node_Next (heap l) (head_ l) in
  Ok (mkIterator p).

Definition SeekToLast (l : OrderedList) (it : Iterator) : Res Iterator :=
  let* p := FindLast l in
  if ptr_eqb p (head_ l) then Ok (mkIterator None) else Ok (mkIterator p).

(** *** Public operations of OrderedList *)

(** The constructor: [head_(NewNode(0))], two unpositioned iterators,
    [head_->SetNext(nullptr)], [begin_.SeekToFirst()]. *)
Definition OrderedList_new : Res OrderedList :=
  let '(h, hd) := NewNode [] zero in
  let* h' := Node_SetNext h hd None in
  let l := mkList h' Iterator_new Iterator_new hd in
  let* b := SeekToFirst l (begin_ l) in
  Ok (mkList h' b (end_ l) hd).

Definition Insert (l : OrderedList) (k : T) : Res OrderedList :=
  let* (x, prev) := FindGreaterOrEqual l k (Some None) in
  let prev := default None prev in
  let* _ := assert_ (match x with
                | None => Ok true
                | Some _ => let* nd := deref (heap l) x in Ok (negb (Equal k (key nd)))
                end) in
  let '(h1, x) := NewNode (heap l) k in
  let* pn := Node_NoBarrierNext h1 prev in
  let* h2 := Node_NoBarrierSetNext h1 x pn in
  let* h3 := Node_SetNext h2 prev x in
  Ok (mkList h3 (begin_ l) (end_ l) (head_ l)).

Definition Contains (l : OrderedList) (k : T) : Res bool :=
  let* (x, _) := FindGreaterOrEqual l k None in
  match x with
  | None => Ok false
  | Some _ => let* nd := deref (heap l) x in Ok (Equal k (key nd))
  end.

(** [begin()] repositions the member [begin_] and returns it; [end()]
    returns [end_]. *)
Definition begin (l : OrderedList) : Res (OrderedList * Iterator) :=
  let* b := SeekToFirst l (begin_ l) in
  Ok (mkList (heap l) b (end_ l) (head_ l), b).

Definition end' (l : OrderedList) : Iterator := end_ l.

(** *** The iterator's operators and the range-based [for] loop

    [operator*] and [operator++] are [key()] and [Next()] again, each
    with its own [assert(Valid())]; [operator!=] compares the nodes. *)
Definition operator_deref (l : OrderedList) (it : Iterator) : Res T :=
  let* _ := assert_ (Ok (Valid it)) in
  let* n := deref (heap l) (node_ it) in
  Ok (key n).

Definition operator_inc (l : OrderedList) (it : Iterator) : Res Iterator :=
  let* _ := assert_ (Ok (Valid it)) in
  let* p := Node_Next (heap l) (node_ it) in
  Ok (mkIterator p).

Definition operator_ne (it other : Iterator) : bool :=
  negb (ptr_eqb (node_ it) (node_ other)).

(** [for (const auto& data : list) body(data)], as [main] uses it: copies
    of [list.begin()] and [list.end()] are taken once, and the loop runs
    while [__begin != __end], reading [*__begin] and then [++__begin].
    The result is the list after [begin()] and the values the body saw. *)
Fixpoint range_for_loop (fuel : nat) (l : OrderedList) (b e : Iterator)
    : Res (list T) :=
  match fuel with
  | O => Err OutOfFuel
  | S fuel' =>
      if operator_ne b e then
        let* data := operator_deref l b in
        let* b' := operator_inc l b in
        let* rest := range_for_loop fuel' l b' e in
        Ok (data :: rest)
      else Ok []
  end.

Definition range_for (l : OrderedList) : Res (OrderedList * list T) :=
  let* (l1, b) := begin l in
  let e := end' l1 in
  let* out := range_for_loop (loop_bound l1) l1 b e in
  Ok (l1, out).

(** *** Whole traversals *)

(** [SeekToFirst()], then [key()] and [Next()] while [Valid()]. *)
Fixpoint forward_loop (fuel : nat) (l : OrderedList) (it : Iterator)
    : Res (list T) :=
  match fuel with
  | O => Err OutOfFuel
  | S fuel' =>
      if Valid it then
        let* k := Iterator_key l it in
        let* it' := Next l it in
        let* ks := forward_loop fuel' l it' in
        Ok (k :: ks)
      else Ok []
  end.

Definition forward_keys (l : OrderedList) : Res (list T) :=
  let* it := SeekToFirst l Iterator_new in
  forward_loop (loop_bound l) l it.

(** [SeekToLast()], then [key()] and [Prev()] while [Valid()]. *)
Fixpoint backward_loop (fuel : nat) (l : OrderedList) (it : Iterator)
    : Res (list T) :=
  match fuel with
  | O => Err OutOfFuel
  | S fuel' =>
      if Valid it then
        let* k := Iterator_key l it in
        let* it' := Prev l it in
        let* ks := backward_loop fuel' l it' in
        Ok (k :: ks)
      else Ok []
  end.

Definition backward_keys (l : OrderedList) : Res (list T) :=
  let* it := SeekToLast l Iterator_new in
  backward_loop (loop_bound l) l it.

(** A list built by the constructor and a sequence of [Insert] calls. *)
Fixpoint Insert_all (l : OrderedList) (ks : list T) : Res OrderedList :=
  match ks with
  | [] => Ok l
  | k :: ks' => let* l' := Insert l k in Insert_all l' ks'
  end.

Definition build (ks : list T) : Res OrderedList :=
  let* l := OrderedList_new in Insert_all l ks.

(** ** Specification vocabulary *)

(** [a] is ordered before [b]. *)
Definition lt (a b : T) : Prop := (compare_ a b < 0)%Z.
Definition ltb (a b : T) : bool := (compare_ a b <? 0)%Z.

(** The nodes met from [p] by following [next_] up to [nullptr], each
    with its address and its key. *)
Fixpoint chain (h : Heap) (p : ptr) (ns : list (addr * T)) : Prop :=
  match ns with
  | [] => p = None
  | n :: ns' =>
      p = Some n.1 /\
      exists nx, h !! n.1 = Some (mkNode n.2 nx) /\ chain h nx ns'
  end.

Definition keys (ns : list (addr * T)) : list T := snd <$> ns.
Definition addrs (ns : list (addr * T)) : list addr := fst <$> ns.

(** [l] has its head at a node with key [T(0)], followed by the stored
    nodes [ns]. *)
Definition repr (l : OrderedList) (ns : list (addr * T)) : Prop :=
  exists a0, head_ l = Some a0 /\ chain (heap l) (Some a0) ((a0, zero) :: ns).

(** Invariant I1 on the stored keys. *)
Definition I1 (ks : list T) : Prop := StronglySorted lt ks.

(** No two keys of the sequence are equal under the comparator. *)
Definition distinct (ks : list T) : Prop :=
  ForallOrdPairs (fun a b => compare_ a b <> 0%Z) ks.

(** The nodes of a chain whose keys are before [k], up to the first one
    that is not, and the rest. *)
Fixpoint before (k : T) (ns : list (addr * T)) : list (addr * T) :=
  match ns with
  | [] => []
  | n :: ns' => if ltb n.2 k then n :: before k ns' else []
  end.

Fixpoint from (k : T) (ns : list (addr * T)) : list (addr * T) :=
  match ns with
  | [] => []
  | n :: ns' => if ltb n.2 k then from k ns' else ns
  end.

Definition first_ptr (ns : list (addr * T)) : ptr :=
  match ns with
  | [] => None
  | n :: _ => Some n.1
  end.

Definition last_ptr (d : ptr) (ns : list (addr * T)) : ptr :=
  match last ns with
  | Some n => Some n.1
  | None => d
  end.

(** The variable behind [Node** prev] after a scan has passed the nodes
    [ns]: untouched when the caller gave [nullptr], else the last node
    passed, if any. *)
Definition track (prev : option ptr) (ns : list (addr * T)) : option ptr :=
  match prev with
  | None => None
  | Some v => Some (last_ptr v ns)
  end.

(** The key of the node [Insert] stops at, when it is one [k] equals. *)
Definition dup (k : T) (R : list (addr * T)) : bool :=
  match R with
  | [] => false
  | m :: _ => Equal k m.2
  end.

(** What holds of a list after the constructor and successful calls of
    [Insert]: the chain from the head is the head, with key [T(0)],
    followed by the nodes [ns], in strictly ascending order. *)
Definition Inv (l : OrderedList) (ns : list (addr * T)) : Prop :=
  repr l ns /\ I1 (zero :: keys ns).

(** ** Chains *)

Lemma before_from k ns : before k ns ++ from k ns = ns.
Proof.
  induction ns as [|n ns IH]; simpl; [done|].
  destruct (ltb n.2 k); simpl; [by rewrite IH | done].
Qed.

Lemma chain_det h : forall ns1 ns2 p, chain h p ns1 -> chain h p ns2 -> ns1 = ns2.
Proof.
  induction ns1 as [|[a k] ns1 IH]; intros [|[b k'] ns2] p; simpl.
  - done.
  - intros -> [? _]. done.
  - intros [-> _] ?. done.
  - intros [-> (nx & Hn & Hc)] [[= <-] (nx' & Hn' & Hc')].
    rewrite Hn in Hn'. injection Hn' as <- <-.
    by rewrite (IH _ _ Hc Hc').
Qed.

Lemma chain_app_inv h : forall ns1 ns2 p,
  chain h p (ns1 ++ ns2) ->
  exists q, chain h q ns2 /\
    (ns1 = [] -> q = p) /\
    (forall n, last ns1 = Some n -> h !! n.1 = Some (mkNode n.2 q)).
Proof.
  induction ns1 as [|n ns1 IH]; intros ns2 p; simpl.
  - intros Hc. exists p. split; [done|]. split; [done|]. intros ? [=].
  - intros [-> (nx & Hn & Hc)].
    destruct (IH _ _ Hc) as (q & Hq & Hnil & Hlast).
    exists q. split; [done|]. split; [done|].
    intros m Hm. destruct ns1 as [|n1 ns1].
    + simpl in Hm. injection Hm as <-. by rewrite (Hnil eq_refl).
    + apply Hlast. by rewrite last_cons_cons in Hm.
Qed.

Lemma chain_first h ns p : chain h p ns -> p = first_ptr ns.
Proof. destruct ns; simpl; [done|]. by intros [-> _]. Qed.

Lemma chain_addr_lt h : forall ns p a,
  chain h p ns -> a ∈ addrs ns -> a < length h.
Proof.
  induction ns as [|n ns IH]; intros p a; simpl.
  - intros _ Hin. by apply elem_of_nil in Hin.
  - intros [-> (nx & Hn & Hc)] Hin. apply elem_of_cons in Hin as [->|Hin].
    + by apply lookup_lt_Some in Hn.
    + by eapply IH.
Qed.

(** A chain that ends never comes back to a node it has left. *)
Lemma chain_not_in_tail h ns n p :
  chain h p (n :: ns) -> n.1 ∉ addrs ns.
Proof.
  intros Hc Hin.
  apply list_elem_of_fmap in Hin as (m & Heq & Hm).
  apply list_elem_of_split in Hm as (l1 & l2 & ->).
  simpl in Hc. destruct Hc as [_ (nx & Hn & Hc)].
  destruct (chain_app_inv _ _ _ _ Hc) as (q & Hq & _).
  assert (Hfull : chain h (Some m.1) (n :: l1 ++ m :: l2)).
  { simpl. split; [by rewrite Heq | by exists nx]. }
  pose proof (chain_first _ _ _ Hq) as Hq'. simpl in Hq'. subst q.
  pose proof (chain_det _ _ _ _ Hq Hfull) as Hlen.
  apply (f_equal length) in Hlen. simpl in Hlen.
  rewrite length_app in Hlen. simpl in Hlen. lia.
Qed.

Lemma chain_NoDup h : forall ns p, chain h p ns -> NoDup (addrs ns).
Proof.
  induction ns as [|n ns IH]; intros p Hc; simpl.
  - constructor.
  - apply NoDup_cons. split.
    + by eapply chain_not_in_tail.
    + destruct Hc as [_ (nx & _ & Hc)]. by eapply IH.
Qed.

Lemma chain_length h ns p : chain h p ns -> length ns <= length h.
Proof.
  intros Hc.
  assert (Hsub : addrs ns ⊆ seq 0 (length h)).
  { intros a Ha. apply elem_of_seq. split; [lia|].
    simpl. by eapply chain_addr_lt. }
  pose proof (chain_NoDup _ _ _ Hc) as Hnd.
  pose proof (submseteq_length _ _ (NoDup_submseteq _ _ Hnd Hsub)) as Hlen.
  unfold addrs in Hlen. by rewrite length_fmap, length_seq in Hlen.
Qed.

Lemma chain_alloc h n : forall ns p, chain h p ns -> chain (h ++ [n]) p ns.
Proof.
  induction ns as [|m ns IH]; intros p; simpl; [done|].
  intros [-> (nx & Hn & Hc)]. split; [done|].
  exists nx. split; [by apply lookup_app_l_Some | by apply IH].
Qed.

Lemma chain_update h a n : forall ns p,
  chain h p ns -> a ∉ addrs ns -> chain (<[a := n]> h) p ns.
Proof.
  induction ns as [|m ns IH]; intros p; simpl; [done|].
  intros [-> (nx & Hn & Hc)] Hnot.
  apply not_elem_of_cons in Hnot as [Hne Hnot].
  split; [done|]. exists nx. split.
  - by rewrite list_lookup_insert_ne.
  - by apply IH.
Qed.

Lemma last_ptr_cons d n ns : last_ptr d (n :: ns) = last_ptr (Some n.1) ns.
Proof.
  unfold last_ptr. destruct ns as [|m ns]; [done|].
  rewrite last_cons_cons.
  destruct (last (m :: ns)) eqn:E; [done|]. by apply last_None in E.
Qed.

Lemma last_ptr_snoc d ns n : last_ptr d (ns ++ [n]) = Some n.1.
Proof. unfold last_ptr. by rewrite last_snoc. Qed.

(** ** The search loops on a chain *)

Lemma FindGreaterOrEqual_loop_spec h k : forall ns p prev fuel,
  chain h p ns -> length ns < fuel ->
  FindGreaterOrEqual_loop fuel h k p prev
  = Ok (first_ptr (from k ns), track prev (before k ns)).
Proof.
  induction ns as [|n ns IH]; intros p prev fuel Hc Hfuel;
    (destruct fuel as [|fuel]; [simpl in Hfuel; lia|]); simpl in Hc, Hfuel.
  - subst p. by destruct prev.
  - destruct Hc as [-> (nx & Hn & Hc)].
    simpl. unfold KeyIsAfterNode, Node_Next, deref. rewrite Hn. simpl.
    unfold ltb. destruct (compare_ n.2 k <? 0)%Z; simpl.
    + rewrite (IH nx _ fuel Hc) by lia.
      destruct prev; simpl; [|done]. by rewrite last_ptr_cons.
    + by destruct prev.
Qed.

Lemma FindLessThan_loop_spec h k : forall ns n fuel,
  chain h (Some n.1) (n :: ns) -> length ns < fuel ->
  FindLessThan_loop fuel h k (Some n.1)
  = match from k ns with
    | [] => Err NullDeref
    | _ :: _ => Ok (last_ptr (Some n.1) (before k ns))
    end.
Proof.
  induction ns as [|m ns IH]; intros n fuel Hc Hfuel;
    (destruct fuel as [|fuel]; [simpl in Hfuel; lia|]);
    destruct Hc as [_ (nx & Hn & Hc)]; simpl in Hc, Hfuel;
    simpl; unfold Node_Next, deref; rewrite Hn; simpl.
  - by subst nx.
  - pose proof Hc as [-> (nx' & Hm & Hc')]. rewrite Hm. simpl.
    unfold ltb. destruct (compare_ m.2 k <? 0)%Z eqn:Hlt; [|done].
    rewrite (IH m fuel) by (simpl; eauto with lia).
    destruct (from k ns); [done|]. by rewrite last_ptr_cons.
Qed.

Lemma FindLast_loop_spec h : forall ns n fuel,
  chain h (Some n.1) (n :: ns) -> length ns < fuel ->
  FindLast_loop fuel h (Some n.1) = Ok (last_ptr (Some n.1) ns).
Proof.
  induction ns as [|m ns IH]; intros n fuel Hc Hfuel;
    (destruct fuel as [|fuel]; [simpl in Hfuel; lia|]);
    destruct Hc as [_ (nx & Hn & Hc)]; simpl in Hc, Hfuel;
    simpl; unfold Node_Next, deref; rewrite Hn; simpl.
  - by subst nx.
  - pose proof Hc as [-> (nx' & Hm & Hc')].
    rewrite (IH m fuel) by (simpl; eauto with lia).
    by rewrite last_ptr_cons.
Qed.

Lemma forward_loop_spec l : forall ns p fuel,
  chain (heap l) p ns -> length ns < fuel ->
  forward_loop fuel l (mkIterator p) = Ok (keys ns).
Proof.
  induction ns as [|n ns IH]; intros p fuel Hc Hfuel;
    (destruct fuel as [|fuel]; [simpl in Hfuel; lia|]); simpl in Hc, Hfuel.
  - by subst p.
  - destruct Hc as [-> (nx & Hn & Hc)].
    simpl. unfold Valid, Iterator_key, Next, Node_Next, deref, assert_. simpl.
    rewrite Hn.
    destruct NDEBUG; simpl; by rewrite (IH nx fuel Hc) by lia.
Qed.

(** ** Linking a new node into a chain *)

Lemma chain_link h k pa kp R : forall B p,
  chain h p (B ++ (pa, kp) :: R) ->
  chain (<[pa := mkNode kp (Some (length h))]>
           (<[length h := mkNode k (first_ptr R)]> (h ++ [mkNode k None])))
        p (B ++ (pa, kp) :: (length h, k) :: R).
Proof.
  set (h' := <[pa := _]> _).
  assert (Hlen : length (<[length h := mkNode k (first_ptr R)]>
                          (h ++ [mkNode k None])) = S (length h)).
  { rewrite length_insert, length_app. simpl. lia. }
  assert (Hsame : forall a, a <> pa -> a < length h -> h' !! a = h !! a).
  { intros a Hne Hlt. unfold h'.
    rewrite list_lookup_insert_ne by done.
    rewrite list_lookup_insert_ne by lia.
    by rewrite lookup_app_l. }
  assert (Hkeep : forall ns q,
    chain h q ns -> pa ∉ addrs ns -> chain h' q ns).
  { intros ns q Hc Hnot. unfold h'.
    apply chain_update; [|done]. apply chain_update.
    - by apply chain_alloc.
    - intros Hin. pose proof (chain_addr_lt _ _ _ _ Hc Hin). lia. }
  induction B as [|m B IH]; intros p Hc.
  - pose proof (chain_not_in_tail _ _ _ _ Hc) as Hnot.
    destruct Hc as [-> (nx & Hn & Hc)]. simpl in Hn, Hnot |- *.
    pose proof (lookup_lt_Some _ _ _ Hn) as Hpa.
    split; [done|]. exists (Some (length h)). split.
    { unfold h'. apply list_lookup_insert_eq. lia. }
    split; [done|]. exists (first_ptr R). split.
    { unfold h'. rewrite list_lookup_insert_ne by lia.
      apply list_lookup_insert_eq. rewrite length_app. simpl. lia. }
    rewrite <- (chain_first _ _ _ Hc). by apply Hkeep.
  - pose proof (chain_not_in_tail _ _ _ _ Hc) as Hnot.
    destruct Hc as [-> (nx & Hn & Hc)]. simpl.
    split; [done|]. exists nx. split; [|by apply IH].
    rewrite Hsame; [done| |by eapply lookup_lt_Some].
    intros Heq. apply Hnot. rewrite Heq.
    apply list_elem_of_fmap. exists (pa, kp). split; [done|].
    apply elem_of_app. right. apply elem_of_cons. by left.
Qed.

(** ** The operations on a represented list *)

Lemma repr_bound l ns : repr l ns -> S (length ns) < loop_bound l.
Proof.
  intros (a0 & _ & Hc). apply chain_length in Hc.
  unfold loop_bound. simpl in Hc. lia.
Qed.

Lemma FindGreaterOrEqual_repr l ns a0 k prev :
  repr l ns -> head_ l = Some a0 ->
  FindGreaterOrEqual l k prev
  = Ok (first_ptr (from k ((a0, zero) :: ns)),
        track prev (before k ((a0, zero) :: ns))).
Proof.
  intros Hr Hhd. pose proof (repr_bound _ _ Hr) as Hb.
  destruct Hr as (a & Ha & Hc). rewrite Hhd in Ha. injection Ha as <-.
  unfold FindGreaterOrEqual. rewrite Hhd.
  by apply FindGreaterOrEqual_loop_spec.
Qed.

Lemma ltb_lt a b : ltb a b = true <-> lt a b.
Proof. unfold ltb, lt. apply Z.ltb_lt. Qed.

Lemma ltb_nlt a b : ltb a b = false <-> ~ lt a b.
Proof. unfold ltb, lt. rewrite Z.ltb_ge. lia. Qed.

Lemma before_lt k ns : Forall (fun n => lt n.2 k) (before k ns).
Proof.
  induction ns as [|n ns IH]; simpl; [constructor|].
  destruct (ltb n.2 k) eqn:E; constructor; [by apply ltb_lt | done].
Qed.

Lemma from_head k ns m R : from k ns = m :: R -> ~ lt m.2 k.
Proof.
  induction ns as [|n ns IH]; simpl; [done|].
  destruct (ltb n.2 k) eqn:E; [done|].
  intros [= <- <-]. by apply ltb_nlt.
Qed.

Lemma from_elem k ns n : n ∈ from k ns -> n ∈ ns.
Proof.
  intros Hin. rewrite <- (before_from k ns). apply elem_of_app. by right.
Qed.

Lemma chain_head_lookup h n ns p :
  chain h p (n :: ns) -> exists nx, h !! n.1 = Some (mkNode n.2 nx).
Proof. intros [_ (nx & Hn & _)]. eauto. Qed.

(** [Insert] of a key ordered after [T(0)]: the new node is linked in
    after the nodes with keys before [k]; without NDEBUG the assertion
    stops the call when the node found has an equal key. *)
Lemma Insert_after_head l ns k :
  repr l ns -> lt zero k ->
  exists l',
    repr l' (before k ns ++ (length (heap l), k) :: from k ns) /\
    Insert l k
    = if negb NDEBUG && dup k (from k ns) then Err AssertFail else Ok l'.
Proof.
  intros Hr Hk. pose proof Hr as (a0 & Hhd & Hc).
  unfold Insert. rewrite (FindGreaterOrEqual_repr l ns a0) by done.
  simpl. apply ltb_lt in Hk as Hkb. rewrite Hkb. simpl.
  set (R := from k ns).
  destruct (last ((a0, zero) :: before k ns)) as [[pa kp]|] eqn:Hlast;
    [|by apply last_None in Hlast].
  apply last_Some in Hlast as Hsplit. destruct Hsplit as [B HB].
  rewrite HB, last_ptr_snoc. simpl.
  assert (Hfull : chain (heap l) (Some a0) (B ++ (pa, kp) :: R)).
  { rewrite cons_middle, app_assoc, <- HB. simpl.
    unfold R. by rewrite before_from. }
  destruct (chain_app_inv (heap l) (B ++ [(pa, kp)]) R (Some a0))
    as (q & Hq & _ & Hpa).
  { by rewrite <- app_assoc. }
  specialize (Hpa (pa, kp) (last_snoc _ _)). simpl in Hpa.
  pose proof (chain_first _ _ _ Hq) as ->.
  assert (Hassert :
    assert_ (match first_ptr R with
             | Some _ =>
                 let* nd := deref (heap l) (first_ptr R)
                 in Ok (negb (Equal k (key nd)))
             | None => Ok true
             end)
    = if negb NDEBUG && dup k R then Err AssertFail else Ok tt).
  { unfold assert_. destruct NDEBUG; [done|].
    destruct R as [|m R'] eqn:HR; simpl; [done|].
    destruct (chain_head_lookup _ _ _ _ Hq) as (nx & Hm). rewrite Hm. simpl.
    by destruct (Equal k m.2). }
  rewrite Hassert.
  pose proof (lookup_lt_Some _ _ _ Hpa) as Hlt.
  eexists. split; [|destruct (negb NDEBUG && dup k R); [done|]; simpl].
  2: { unfold Node_NoBarrierNext, Node_NoBarrierSetNext, Node_SetNext, deref.
       rewrite (lookup_app_l_Some _ _ _ _ Hpa). simpl.
       rewrite list_lookup_middle by done. simpl.
       rewrite list_lookup_insert_ne by lia.
       rewrite (lookup_app_l_Some _ _ _ _ Hpa). simpl. reflexivity. }
  exists a0. split; [done|]. simpl heap.
  replace ((a0, zero) :: before k ns ++ (length (heap l), k) :: R)
    with (B ++ (pa, kp) :: (length (heap l), k) :: R).
  - by apply chain_link.
  - rewrite (cons_middle (pa, kp)), app_assoc, <- HB. done.
Qed.

Lemma dup_distinct k ns :
  Forall (fun k' => compare_ k k' <> 0%Z) (keys ns) -> dup k (from k ns) = false.
Proof.
  intros Hne. destruct (from k ns) as [|m R] eqn:HR; [done|]. simpl.
  assert (Hin : m.2 ∈ keys ns).
  { apply list_elem_of_fmap. exists m. split; [done|].
    apply (from_elem k). rewrite HR. by left. }
  rewrite Forall_forall in Hne. apply Hne in Hin.
  unfold Equal. by apply Z.eqb_neq.
Qed.

Lemma Insert_repr l ns k :
  repr l ns -> lt zero k ->
  Forall (fun k' => compare_ k k' <> 0%Z) (keys ns) ->
  exists l',
    Insert l k = Ok l' /\
    repr l' (before k ns ++ (length (heap l), k) :: from k ns).
Proof.
  intros Hr Hk Hne.
  destruct (Insert_after_head l ns k Hr Hk) as (l' & Hr' & HI).
  rewrite (dup_distinct _ _ Hne), andb_false_r in HI. eauto.
Qed.

(** [Insert] of a key that is not ordered after [T(0)]: the scan stops at
    the head, [prev] is still [nullptr], and [prev->NoBarrierNext()] is a
    null dereference, unless the assertion stops the call first. *)
Lemma Insert_not_after_head l ns k :
  repr l ns -> ~ lt zero k ->
  Insert l k
  = if negb NDEBUG && Equal k zero then Err AssertFail else Err NullDeref.
Proof.
  intros Hr Hk. pose proof Hr as (a0 & Hhd & Hc).
  unfold Insert. rewrite (FindGreaterOrEqual_repr l ns a0) by done.
  simpl. apply ltb_nlt in Hk as ->. simpl.
  destruct Hc as [_ (nx & Hn & _)]. simpl in Hn.
  unfold assert_, deref. destruct NDEBUG; simpl; [done|].
  rewrite Hn. simpl. by destruct (Equal k zero).
Qed.

(** ** The traversals on a represented list *)

Lemma OrderedList_new_eq :
  OrderedList_new
  = Ok (mkList [mkNode zero None] (mkIterator None) Iterator_new (Some 0)).
Proof. reflexivity. Qed.

Lemma repr_new l : OrderedList_new = Ok l -> repr l [].
Proof.
  rewrite OrderedList_new_eq. intros [= <-].
  exists 0. split; [done|]. simpl. split; [done|]. by exists None.
Qed.

Lemma SeekToFirst_repr l ns it :
  repr l ns -> SeekToFirst l it = Ok (mkIterator (first_ptr ns)).
Proof.
  intros (a0 & Hhd & _ & (nx & Hn & Hc)). simpl in Hn.
  unfold SeekToFirst, Node_Next, deref. rewrite Hhd, Hn. simpl.
  by rewrite (chain_first _ _ _ Hc).
Qed.

Lemma forward_keys_repr l ns : repr l ns -> forward_keys l = Ok (keys ns).
Proof.
  intros Hr. unfold forward_keys. rewrite (SeekToFirst_repr l ns) by done.
  cbn [bind]. pose proof (repr_bound _ _ Hr) as Hb.
  destruct Hr as (a0 & Hhd & _ & (nx & Hn & Hc)).
  apply forward_loop_spec; [|lia]. by rewrite <- (chain_first _ _ _ Hc).
Qed.

Lemma ptr_eqb_refl p : ptr_eqb p p = true.
Proof. unfold ptr_eqb. by apply bool_decide_eq_true. Qed.

Lemma ptr_eqb_ne p q : p <> q -> ptr_eqb p q = false.
Proof. unfold ptr_eqb. by apply bool_decide_eq_false. Qed.

(** What [SeekToLast] and [Prev] make of the node their scan returns: the
    head is turned into [nullptr]. *)
Lemma hide_head a0 B :
  a0 ∉ addrs B ->
  (if ptr_eqb (last_ptr (Some a0) B) (Some a0)
   then Ok (mkIterator None)
   else Ok (mkIterator (last_ptr (Some a0) B)))
  = Ok (mkIterator (last_ptr None B)).
Proof.
  intros Hnot. unfold last_ptr.
  destruct (last B) as [m|] eqn:Hlast.
  - rewrite ptr_eqb_ne; [done|]. intros [= Heq]. apply Hnot.
    rewrite <- Heq. apply list_elem_of_fmap. exists m. split; [done|].
    by eapply last_Some_elem_of.
  - by rewrite ptr_eqb_refl.
Qed.

Lemma repr_head_fresh l ns a0 : repr l ns -> head_ l = Some a0 -> a0 ∉ addrs ns.
Proof.
  intros (a & Ha & Hc) Hhd. rewrite Hhd in Ha. injection Ha as <-.
  by apply (chain_not_in_tail _ _ _ _ Hc).
Qed.

Lemma FindLast_repr l ns a0 :
  repr l ns -> head_ l = Some a0 -> FindLast l = Ok (last_ptr (Some a0) ns).
Proof.
  intros Hr Hhd. pose proof (repr_bound _ _ Hr) as Hb.
  destruct Hr as (a & Ha & Hc). rewrite Hhd in Ha. injection Ha as <-.
  unfold FindLast. rewrite Hhd.
  apply (FindLast_loop_spec _ ns (a0, zero)); [done|lia].
Qed.

Lemma SeekToLast_repr l ns it :
  repr l ns -> SeekToLast l it = Ok (mkIterator (last_ptr None ns)).
Proof.
  intros Hr. pose proof Hr as (a0 & Hhd & _).
  unfold SeekToLast. rewrite (FindLast_repr l ns a0) by done. simpl.
  rewrite Hhd. apply hide_head. by eapply repr_head_fresh.
Qed.

Lemma FindLessThan_repr l ns a0 k :
  repr l ns -> head_ l = Some a0 ->
  FindLessThan l k
  = match from k ns with
    | [] => Err NullDeref
    | _ :: _ => Ok (last_ptr (Some a0) (before k ns))
    end.
Proof.
  intros Hr Hhd. pose proof (repr_bound _ _ Hr) as Hb.
  destruct Hr as (a & Ha & Hc). rewrite Hhd in Ha. injection Ha as <-.
  unfold FindLessThan. rewrite Hhd.
  apply (FindLessThan_loop_spec _ k ns (a0, zero)); [done|lia].
Qed.

Lemma repr_lookup l ns B n R :
  repr l ns -> ns = B ++ n :: R ->
  exists nx, heap l !! n.1 = Some (mkNode n.2 nx).
Proof.
  intros (a0 & _ & Hc) ->.
  destruct (chain_app_inv (heap l) ((a0, zero) :: B) (n :: R) (Some a0) Hc)
    as (q & Hq & _).
  by eapply chain_head_lookup.
Qed.

(** ** Sorted chains

    The comparator is a strict total order given as a three-way
    comparison: exchanging the arguments exchanges negative and positive
    results, and "ordered before" is transitive. *)
Hypothesis compare_antisym :
  forall a b, (compare_ a b < 0 <-> 0 < compare_ b a)%Z.
Hypothesis compare_trans :
  forall a b c, lt a b -> lt b c -> lt a c.

Lemma lt_irrefl a : ~ lt a a.
Proof. unfold lt. pose proof (compare_antisym a a). lia. Qed.

Lemma lt_asym a b : lt a b -> ~ lt b a.
Proof. unfold lt. pose proof (compare_antisym a b). lia. Qed.

Lemma lt_ne a b : lt a b -> compare_ b a <> 0%Z /\ compare_ a b <> 0%Z.
Proof. unfold lt. pose proof (compare_antisym a b). lia. Qed.

Lemma compare_eq_sym a b : compare_ a b = 0%Z -> compare_ b a = 0%Z.
Proof.
  pose proof (compare_antisym a b). pose proof (compare_antisym b a). lia.
Qed.

Lemma nlt_ne_lt k m : ~ lt m k -> compare_ k m <> 0%Z -> lt k m.
Proof.
  unfold lt.
  pose proof (compare_antisym k m). pose proof (compare_antisym m k). lia.
Qed.

Lemma keys_app ns1 ns2 : keys (ns1 ++ ns2) = keys ns1 ++ keys ns2.
Proof. unfold keys. apply fmap_app. Qed.

Lemma keys_elem n ns : n ∈ ns -> n.2 ∈ keys ns.
Proof. intros Hin. apply list_elem_of_fmap. by exists n. Qed.

(** In a sorted chain, the scan for the key of a node stops at that
    node. *)
Lemma sorted_before_from n R : forall B,
  I1 (keys (B ++ n :: R)) ->
  before n.2 (B ++ n :: R) = B /\ from n.2 (B ++ n :: R) = n :: R.
Proof.
  induction B as [|m B IH]; simpl; intros Hs.
  - pose proof (lt_irrefl n.2) as Hn. apply ltb_nlt in Hn. by rewrite Hn.
  - apply StronglySorted_cons in Hs as [Hall Hs].
    assert (Hm : lt m.2 n.2).
    { rewrite Forall_forall in Hall. apply Hall.
      apply (keys_elem n). apply elem_of_app. right. by left. }
    apply ltb_lt in Hm. rewrite Hm.
    destruct (IH Hs) as [-> ->]. done.
Qed.

(** Linking [k] in where the scan stops keeps the chain sorted. *)
Lemma insert_sorted k a ns :
  I1 (keys ns) ->
  Forall (fun k' => compare_ k k' <> 0%Z) (keys ns) ->
  I1 (keys (before k ns ++ (a, k) :: from k ns)).
Proof.
  intros Hs Hne. rewrite keys_app. simpl.
  rewrite <- (before_from k ns), keys_app in Hs.
  apply StronglySorted_app_2.
  - intros x1 x2 Hx1 Hx2.
    assert (Hx1k : lt x1 k).
    { apply list_elem_of_fmap in Hx1 as (m & -> & Hm).
      pose proof (before_lt k ns) as Hb. rewrite Forall_forall in Hb.
      by apply Hb. }
    apply elem_of_cons in Hx2 as [->|Hx2]; [done|].
    by eapply StronglySorted_app_1_elem_of.
  - by eapply StronglySorted_app_1_l.
  - apply StronglySorted_app_1_r in Hs.
    apply StronglySorted_cons. split; [|done].
    destruct (from k ns) as [|m R] eqn:HR; [constructor|].
    assert (Hkm : lt k m.2).
    { apply nlt_ne_lt; [by eapply from_head|].
      rewrite Forall_forall in Hne. apply Hne.
      apply keys_elem, (from_elem k). rewrite HR. by left. }
    simpl in Hs |- *. apply StronglySorted_cons in Hs as [Hall _].
    constructor; [done|].
    eapply Forall_impl; [exact Hall|]. intros x Hx. by eapply compare_trans.
Qed.

Lemma insert_perm k a ns :
  keys (before k ns ++ (a, k) :: from k ns) ≡ₚ k :: keys ns.
Proof.
  rewrite <- (before_from k ns) at 3. rewrite !keys_app. simpl.
  by rewrite Permutation_middle.
Qed.

(** ** Backward traversal of a sorted chain *)

Lemma Prev_repr l ns B n R :
  repr l ns -> I1 (keys ns) -> ns = B ++ n :: R ->
  Prev l (mkIterator (Some n.1)) = Ok (mkIterator (last_ptr None B)).
Proof.
  intros Hr Hs Hns. pose proof Hr as (a0 & Hhd & _).
  destruct (repr_lookup l ns B n R Hr Hns) as (nx & Hn).
  assert (Hassert : assert_ (Ok (Valid (mkIterator (Some n.1)))) = Ok tt).
  { unfold assert_. by destruct NDEBUG. }
  unfold Prev. rewrite Hassert. simpl. rewrite Hn. simpl.
  rewrite (FindLessThan_repr l ns a0) by done.
  rewrite Hns in Hs |- *.
  destruct (sorted_before_from n R B Hs) as [-> ->].
  simpl. rewrite Hhd. apply hide_head.
  pose proof (repr_head_fresh l ns a0 Hr Hhd) as Hnot.
  intros Hin. apply Hnot. rewrite Hns. unfold addrs. rewrite fmap_app.
  apply elem_of_app. by left.
Qed.

Lemma backward_loop_spec l ns :
  repr l ns -> I1 (keys ns) ->
  forall B n R fuel,
    ns = B ++ n :: R -> S (length B) < fuel ->
    backward_loop fuel l (mkIterator (Some n.1)) = Ok (n.2 :: rev (keys B)).
Proof.
  intros Hr Hs B. induction B as [|m B IH] using rev_ind;
    intros n R fuel Hns Hfuel;
    (destruct fuel as [|fuel]; [lia|]);
    destruct (repr_lookup l ns _ n R Hr Hns) as (nx & Hn);
    simpl; unfold Iterator_key, assert_; simpl; rewrite Hn;
    rewrite (Prev_repr l ns _ n R Hr Hs Hns).
  - destruct fuel as [|fuel]; [simpl in Hfuel; lia|].
    by destruct NDEBUG.
  - rewrite last_ptr_snoc.
    rewrite length_app in Hfuel. simpl in Hfuel.
    rewrite keys_app, rev_app_distr.
    destruct NDEBUG; simpl;
      (rewrite (IH m (n :: R) fuel);
        [done | by rewrite Hns, <- app_assoc | lia]).
Qed.

Lemma backward_keys_repr l ns :
  repr l ns -> I1 (keys ns) -> backward_keys l = Ok (rev (keys ns)).
Proof.
  intros Hr Hs. unfold backward_keys.
  rewrite (SeekToLast_repr l ns) by done. cbn [bind].
  pose proof (repr_bound _ _ Hr) as Hb.
  destruct ns as [|n0 ns0] using rev_ind.
  - unfold loop_bound. done.
  - clear IHns0. rewrite last_ptr_snoc.
    rewrite (backward_loop_spec l _ Hr Hs ns0 n0 []); [|done|].
    + by rewrite keys_app, rev_app_distr.
    + rewrite length_app in Hb. simpl in Hb. lia.
Qed.

(** ** Lists built by a sequence of insertions *)

Lemma Inv_I1 l ns : Inv l ns -> I1 (keys ns).
Proof. intros [_ Hs]. by apply StronglySorted_cons in Hs as [_ ?]. Qed.

Lemma Inv_after_head l ns : Inv l ns -> Forall (lt zero) (keys ns).
Proof. intros [_ Hs]. by apply StronglySorted_cons in Hs as [? _]. Qed.

Lemma Inv_new l : OrderedList_new = Ok l -> Inv l [].
Proof.
  intros Hl. split; [by apply repr_new|].
  repeat constructor.
Qed.

Lemma Insert_Inv l ns k :
  Inv l ns -> lt zero k ->
  Forall (fun k' => compare_ k k' <> 0%Z) (keys ns) ->
  exists l' ns',
    Insert l k = Ok l' /\ Inv l' ns' /\ keys ns' ≡ₚ k :: keys ns.
Proof.
  intros HI Hk Hne. pose proof HI as [Hr Hs].
  destruct (Insert_repr l ns k Hr Hk Hne) as (l' & Hins & Hr').
  exists l', (before k ns ++ (length (heap l), k) :: from k ns).
  split; [done|]. split; [|apply insert_perm].
  split; [done|]. apply StronglySorted_cons. split.
  - rewrite insert_perm. constructor; [done|]. by eapply Inv_after_head.
  - apply insert_sorted; [by eapply Inv_I1 | done].
Qed.

Lemma Insert_all_cases : forall ks l ns,
  Inv l ns -> distinct ks ->
  Forall (fun k => Forall (fun k' => compare_ k k' <> 0%Z) (keys ns)) ks ->
  (Forall (lt zero) ks /\
   exists l' ns',
     Insert_all l ks = Ok l' /\ Inv l' ns' /\ keys ns' ≡ₚ ks ++ keys ns)
  \/ (~ Forall (lt zero) ks /\ is_ok (Insert_all l ks) = false).
Proof.
  induction ks as [|k ks IH]; intros l ns HI Hd Hne.
  { left. split; [constructor|]. exists l, ns. by simpl. }
  inversion Hd as [|? ? Hk_ks Hd']; subst.
  apply Forall_cons in Hne as [Hk_ns Hne].
  destruct (Z_lt_dec (compare_ zero k) 0) as [Hk|Hk]; fold (lt zero k) in Hk.
  2: { right. split; [by intros [? _]%Forall_cons|].
       simpl. rewrite (Insert_not_after_head l ns k) by (done || apply HI).
       by destruct (negb NDEBUG && Equal k zero). }
  destruct (Insert_Inv l ns k HI Hk Hk_ns) as (l1 & ns1 & Hins & HI1 & Hp1).
  simpl. rewrite Hins. simpl.
  destruct (IH l1 ns1 HI1 Hd') as [(Hall & l' & ns' & Hok & HI' & Hp)|[Hnot Herr]].
  - rewrite Forall_forall in Hne, Hk_ks |- *. intros k2 Hk2.
    rewrite Hp1. constructor; [|by apply Hne].
    intros Heq. apply compare_eq_sym in Heq. by apply (Hk_ks k2).
  - left. split; [by constructor|]. exists l', ns'.
    split; [done|]. split; [done|].
    rewrite Hp, Hp1. by rewrite Permutation_middle.
  - right. split; [|done]. by intros [_ ?]%Forall_cons.
Qed.

(** Keys that are pairwise distinct and ordered after [T(0)], inserted
    in any order, give a list whose forward traversal is those keys in
    strictly ascending order. *)
Lemma build_sorted ks :
  Forall (lt zero) ks -> distinct ks ->
  exists l ns,
    build ks = Ok l /\ Inv l ns /\ keys ns ≡ₚ ks /\
    forward_keys l = Ok (keys ns).
Proof.
  intros Hall Hd. unfold build. rewrite OrderedList_new_eq. simpl.
  pose proof (Inv_new _ OrderedList_new_eq) as HI0.
  destruct (Insert_all_cases ks _ [] HI0 Hd) as [(_ & l & ns & Hok & HI & Hp)|[Hnot _]];
    [by apply Forall_forall| |done].
  exists l, ns. split; [done|]. split; [done|].
  split; [by rewrite app_nil_r in Hp|].
  apply forward_keys_repr, HI.
Qed.

(** A list that was built from pairwise distinct keys satisfies the
    invariant, and all its keys are ordered after [T(0)]. *)
Lemma build_ok_Inv ks l :
  build ks = Ok l -> distinct ks ->
  exists ns, Inv l ns /\ keys ns ≡ₚ ks /\ Forall (lt zero) ks.
Proof.
  unfold build. rewrite OrderedList_new_eq. simpl. intros Hok Hd.
  pose proof (Inv_new _ OrderedList_new_eq) as HI0.
  destruct (Insert_all_cases ks _ [] HI0 Hd) as [(Hall & l' & ns & Hok' & HI & Hp)|[_ Herr]];
    [by apply Forall_forall| |by rewrite Hok in Herr].
  rewrite Hok in Hok'. injection Hok' as <-.
  exists ns. by rewrite app_nil_r in Hp.
Qed.

(** Every list the constructor and [Insert] calls give is represented,
whatever the keys: this needs no property of the comparator. *)
Lemma Insert_all_repr : forall ks l ns l',
  repr l ns -> Insert_all l ks = Ok l' -> exists ns', repr l' ns'.
Proof.
  induction ks as [|k ks IH]; intros l ns l' Hr; simpl.
  { intros [= <-]. eauto. }
  destruct (Z_lt_dec (compare_ zero k) 0) as [Hk|Hk]; fold (lt zero k) in Hk.
  - destruct (Insert_after_head l ns k Hr Hk) as (l1 & Hr1 & ->).
    destruct (negb NDEBUG && dup k (from k ns)); simpl; [done|].
    by apply IH with (ns := before k ns ++ (length (heap l), k) :: from k ns).
  - rewrite (Insert_not_after_head l ns k Hr Hk).
    by destruct (negb NDEBUG && Equal k zero).
Qed.

Lemma build_repr ks l : build ks = Ok l -> exists ns, repr l ns.
Proof.
  unfold build. rewrite OrderedList_new_eq. simpl.
  apply Insert_all_repr with (ns := []). by apply repr_new, OrderedList_new_eq.
Qed.

Lemma Seek_repr l ns a0 it k :
  repr l ns -> head_ l = Some a0 ->
  Seek l it k = Ok (mkIterator (first_ptr (from k ((a0, zero) :: ns)))).
Proof.
  intros Hr Hhd. unfold Seek.
  by rewrite (FindGreaterOrEqual_repr l ns a0) by done.
Qed.

Lemma Contains_repr l ns a0 k :
  repr l ns -> head_ l = Some a0 ->
  Contains l k = Ok (dup k (from k ((a0, zero) :: ns))).
Proof.
  intros Hr Hhd. unfold Contains.
  rewrite (FindGreaterOrEqual_repr l ns a0) by done. cbn [bind].
  destruct Hr as (a & Ha & Hc). rewrite Hhd in Ha. injection Ha as <-.
  rewrite <- (before_from k ((a0, zero) :: ns)) in Hc.
  apply chain_app_inv in Hc as (q & Hq & _).
  destruct (from k ((a0, zero) :: ns)) as [|m R]; [done|].
  destruct (chain_head_lookup _ _ _ _ Hq) as (nx & Hm).
  simpl. by rewrite Hm.
Qed.

(** For a key ordered after [T(0)] the head plays no part: [Contains]
says whether a stored key equals [k]. *)
Lemma Contains_after_head l ns k :
  Inv l ns -> lt zero k ->
  Contains l k = Ok true <-> exists k', k' ∈ keys ns /\ compare_ k k' = 0%Z.
Proof.
  intros HI Hk. pose proof HI as [Hr _]. pose proof Hr as (a0 & Hhd & _).
  rewrite (Contains_repr l ns a0) by done. simpl.
  apply ltb_lt in Hk as ->.
  pose proof (Inv_I1 _ _ HI) as Hs.
  rewrite <- (before_from k ns), keys_app in Hs.
  split.
  - intros [= Hdup]. destruct (from k ns) as [|m R] eqn:HR; [done|].
    exists m.2. split; [|by apply Z.eqb_eq].
    apply keys_elem, (from_elem k). rewrite HR. by left.
  - intros (k' & Hin & Heq). f_equal.
    rewrite <- (before_from k ns), keys_app in Hin.
    apply elem_of_app in Hin as [Hin|Hin].
    + apply list_elem_of_fmap in Hin as (m & -> & Hm).
      pose proof (before_lt k ns) as Hb. rewrite Forall_forall in Hb.
      apply Hb, lt_ne in Hm. tauto.
    + destruct (from k ns) as [|m R] eqn:HR; [by apply elem_of_nil in Hin|].
      simpl. apply Z.eqb_eq.
      destruct (Z.eq_dec (compare_ k m.2) 0%Z) as [|Hne]; [done|exfalso].
      pose proof (nlt_ne_lt k m.2 (from_head _ _ _ _ HR) Hne) as Hkm.
      apply StronglySorted_app_1_r in Hs. simpl in Hs, Hin.
      apply StronglySorted_cons in Hs as [Hall _].
      apply elem_of_cons in Hin as [->|Hin].
      * apply lt_ne in Hkm. tauto.
      * rewrite Forall_forall in Hall.
        pose proof (compare_trans _ _ _ Hkm (Hall _ Hin)) as Hlt.
        apply lt_ne in Hlt. tauto.
Qed.

Lemma from_all_before k ns :
  Forall (fun k' => lt k' k) (keys ns) -> from k ns = [].
Proof.
  induction ns as [|n ns IH]; simpl; [done|].
  intros [Hn Hall]%Forall_cons. apply ltb_lt in Hn. rewrite Hn. by apply IH.
Qed.

(** When every stored key is ordered before [k] (and so on the empty
list) the scan of [FindLessThan] reaches the last node and reads the key of
its null successor. *)
Lemma FindLessThan_all_before l ns k :
  repr l ns -> Forall (fun k' => lt k' k) (keys ns) ->
  FindLessThan l k = Err NullDeref.
Proof.
  intros Hr Hall. pose proof Hr as (a0 & Hhd & _).
  rewrite (FindLessThan_repr l ns a0) by done.
  by rewrite (from_all_before k ns Hall).
Qed.

(** ** The claims that hold for every key type and comparator *)

(** C6. The head is constructed with the key [T(0)], and that key takes
part in the scan of [FindGreaterOrEqual].  On every list built by the
constructor and [Insert] calls: for a key [k] ordered after [T(0)],
[FindGreaterOrEqual(k, &prev)] leaves a non-null node in [prev] and
[Insert(k)] does not dereference a null pointer; for a key that is not
ordered after [T(0)], the scan returns the head, [prev] is still
[nullptr], and [Insert(k)] ends in the null dereference of [prev] (or, in
a build with assertions, in the failed assertion when [k] equals [T(0)]). *)
Theorem head_key_decides_prev ks l k :
  build ks = Ok l ->
  (exists a0 nx, head_ l = Some a0 /\ heap l !! a0 = Some (mkNode zero nx)) /\
  (lt zero k ->
     (exists x p, FindGreaterOrEqual l k (Some None) = Ok (x, Some (Some p))) /\
     Insert l k <> Err NullDeref) /\
  (~ lt zero k ->
     FindGreaterOrEqual l k (Some None) = Ok (head_ l, Some None) /\
     Insert l k
     = if negb NDEBUG && Equal k zero then Err AssertFail else Err NullDeref).
Proof.
  intros Hb. destruct (build_repr ks l Hb) as (ns & Hr).
  pose proof Hr as (a0 & Hhd & _ & (nx & Hn & _)). simpl in Hn.
  split; [by eauto|]. split.
  - intros Hk. split.
    + rewrite (FindGreaterOrEqual_repr l ns a0) by done. simpl.
      apply ltb_lt in Hk as ->. simpl. rewrite last_ptr_cons.
      unfold last_ptr. destruct (last (before k ns)); eauto.
    + destruct (Insert_after_head l ns k Hr Hk) as (l' & _ & ->).
      by destruct (negb NDEBUG && dup k (from k ns)).
  - intros Hk. split; [|by eapply Insert_not_after_head].
    rewrite (FindGreaterOrEqual_repr l ns a0) by done. simpl.
    apply ltb_nlt in Hk as ->. by rewrite Hhd.
Qed.

(** C7. On a list that satisfies I1, [Prev()] from the stored node [n],
which has the nodes [B] before it in the chain, moves the iterator to the
last node of [B]: the stored node with the largest key ordered before the
key of [n].  The iterator becomes invalid exactly when [n] is the first
stored node. *)
Theorem Prev_steps_back l ns B n R :
  repr l ns -> I1 (keys ns) -> ns = B ++ n :: R ->
  exists it',
    Prev l (mkIterator (Some n.1)) = Ok it' /\
    node_ it' = last_ptr None B /\
    (Valid it' = false <-> B = []) /\
    (forall m, last B = Some m ->
       lt m.2 n.2 /\
       forall x, x ∈ ns -> lt x.2 n.2 -> x = m \/ lt x.2 m.2).
Proof.
  intros Hr Hs Hns. eexists. split; [by eapply Prev_repr|].
  split; [done|]. split.
  - unfold Valid, last_ptr. simpl. rewrite <- last_None.
    by destruct (last B).
  - intros m [B' ->]%last_Some. rewrite Hns in Hs |- *.
    rewrite <- app_assoc in Hs |- *. simpl in Hs |- *.
    rewrite keys_app in Hs. simpl in Hs.
    pose proof (StronglySorted_app_1_r _ _ _ Hs) as Hs2.
    apply StronglySorted_cons in Hs2 as [Hm Hs2].
    apply StronglySorted_cons in Hs2 as [Hn _].
    apply Forall_cons in Hm as [Hmn _]. split; [done|].
    intros x Hx Hlt. apply elem_of_app in Hx as [Hx|Hx].
    { right. eapply StronglySorted_app_1_elem_of; [exact Hs| |by left].
      by apply keys_elem. }
    apply elem_of_cons in Hx as [->|Hx]; [by left|].
    apply elem_of_cons in Hx as [->|Hx]; [by apply lt_irrefl in Hlt|].
    rewrite Forall_forall in Hn. apply keys_elem, Hn, lt_asym in Hx. done.
Qed.

(** C8. On every list built by [Insert] calls with pairwise distinct
keys, the keys visited by [SeekToLast()] and [Prev()] until the iterator
is invalid are those visited by [SeekToFirst()] and [Next()] until it is
invalid, in reverse order. *)
Theorem forward_backward_symmetry ks l :
  build ks = Ok l -> distinct ks ->
  exists fwd,
    forward_keys l = Ok fwd /\ backward_keys l = Ok (rev fwd).
Proof.
  intros Hb Hd. destruct (build_ok_Inv ks l Hb Hd) as (ns & HI & _).
  exists (keys ns). split.
  - apply forward_keys_repr, HI.
  - apply backward_keys_repr; [apply HI | by eapply Inv_I1].
Qed.

(** ** Further properties of the operations *)

(** The node a scan leaves in [prev] is one it has visited. *)
Lemma FindGreaterOrEqual_loop_prev h k : forall fuel x v x' pa,
  FindGreaterOrEqual_loop fuel h k x (Some v) = Ok (x', Some (Some pa)) ->
  v = Some pa \/ is_Some (h !! pa).
Proof.
  induction fuel as [|fuel IH]; intros x v x' pa; simpl; [done|].
  destruct x as [a|]; [|intros [= <- <-]; by left].
  unfold KeyIsAfterNode, Node_Next, deref.
  destruct (h !! a) as [n|] eqn:Hn; simpl; [|done].
  destruct (compare_ (key n) k <? 0)%Z; simpl.
  - intros Hrec. apply IH in Hrec as [[= <-]|?]; [|by right].
    right. by rewrite Hn.
  - intros [= <- <-]. by left.
Qed.

(** The heap after a call of [Insert] that returns: one node allocated,
with the key, and linked in after a node [pa] of the old heap. *)
Lemma Insert_ok_inv l k l' :
  Insert l k = Ok l' ->
  exists pa np,
    heap l !! pa = Some np /\
    heap l'
    = <[pa := mkNode (key np) (Some (length (heap l)))]>
        (<[length (heap l) := mkNode k (next_ np)]>
           (heap l ++ [mkNode k None])) /\
    head_ l' = head_ l /\ begin_ l' = begin_ l /\ end_ l' = end_ l.
Proof.
  unfold Insert, FindGreaterOrEqual.
  destruct (FindGreaterOrEqual_loop _ _ _ _ _) as [[x prev]|] eqn:HF;
    simpl; [|done].
  destruct (assert_ _); simpl; [|done].
  destruct prev as [[pa|]|]; simpl; [|done|done].
  apply FindGreaterOrEqual_loop_prev in HF as [[=]|[np Hnp]].
  pose proof (lookup_lt_Some _ _ _ Hnp) as Hlt.
  unfold Node_NoBarrierNext, Node_NoBarrierSetNext, Node_SetNext, deref.
  rewrite (lookup_app_l_Some _ _ _ _ Hnp). simpl.
  rewrite list_lookup_middle by done. simpl.
  rewrite list_lookup_insert_ne by lia.
  rewrite (lookup_app_l_Some _ _ _ _ Hnp). simpl.
  intros [= <-]. by exists pa, np.
Qed.

(** X1. A call of [Insert] that returns has allocated exactly one node,
which holds the key; the head and both member iterators are untouched,
and every node of the old heap is still at its address with the key it
had: nodes are never freed and keys never change. *)
Theorem Insert_keeps_nodes l k l' :
  Insert l k = Ok l' ->
  head_ l' = head_ l /\ begin_ l' = begin_ l /\ end_ l' = end_ l /\
  length (heap l') = S (length (heap l)) /\
  (exists n', heap l' !! length (heap l) = Some n' /\ key n' = k) /\
  (forall a n, heap l !! a = Some n ->
     exists n', heap l' !! a = Some n' /\ key n' = key n).
Proof.
  intros (pa & np & Hnp & Hh & Hhd & Hb & He)%Insert_ok_inv.
  pose proof (lookup_lt_Some _ _ _ Hnp) as Hlt.
  repeat (split; [done|]). rewrite Hh. split; [|split].
  - rewrite !length_insert, length_app. simpl. lia.
  - exists (mkNode k (next_ np)). split; [|done].
    rewrite list_lookup_insert_ne by lia.
    apply list_lookup_insert_eq. rewrite length_app. simpl. lia.
  - intros a n Hn. pose proof (lookup_lt_Some _ _ _ Hn) as Ha.
    destruct (decide (a = pa)) as [->|Hne].
    + exists (mkNode (key np) (Some (length (heap l)))). split.
      * apply list_lookup_insert_eq.
        rewrite length_insert, length_app. simpl. lia.
      * rewrite Hnp in Hn. by injection Hn as <-.
    + exists n. split; [|done].
      rewrite list_lookup_insert_ne by done.
      rewrite list_lookup_insert_ne by lia.
      by apply lookup_app_l_Some.
Qed.

(** X2. How [Insert] ends, on a list as the constructor and [Insert]
calls leave it.  [Insert(k)] returns exactly when [k] is ordered after
the head's key [T(0)] and, in a build with assertions, [Contains(k)] is
false.  It stops at the failed assertion exactly when assertions are on
and [Contains(k)] is true, and it dereferences the null [prev] exactly
when [k] is not ordered after [T(0)] and the assertion does not stop it
first.  There is no other way for it to end. *)
Theorem Insert_ok_iff l ns k :
  repr l ns ->
  (is_ok (Insert l k) = true
   <-> lt zero k /\ (NDEBUG = true \/ Contains l k = Ok false)) /\
  (Insert l k = Err AssertFail
   <-> NDEBUG = false /\ Contains l k = Ok true) /\
  (Insert l k = Err NullDeref
   <-> ~ lt zero k /\ (NDEBUG = true \/ Contains l k = Ok false)) /\
  (is_ok (Insert l k) = false ->
   Insert l k = Err AssertFail \/ Insert l k = Err NullDeref).
Proof.
  intros Hr. pose proof Hr as (a0 & Hhd & _).
  rewrite (Contains_repr l ns a0) by done. simpl.
  destruct (Z_lt_dec (compare_ zero k) 0) as [Hk|Hk]; fold (lt zero k) in Hk.
  - destruct (Insert_after_head l ns k Hr Hk) as (l' & _ & ->).
    apply ltb_lt in Hk as Hkb. rewrite Hkb.
    destruct NDEBUG, (dup k (from k ns)); simpl;
      intuition (discriminate || congruence).
  - rewrite (Insert_not_after_head l ns k Hr Hk).
    apply ltb_nlt in Hk as Hkb. rewrite Hkb. simpl.
    destruct NDEBUG, (Equal k zero); simpl;
      intuition (discriminate || congruence).
Qed.

(** X3. Every operation that needs a positioned iterator starts with
[assert(Valid())]: on an iterator that is not positioned, [key()],
[Next()], [Prev()], [operator*] and [operator++] stop at the assertion,
and under NDEBUG dereference the null [node_]. *)
Theorem invalid_iterator_faults l it :
  Valid it = false ->
  let f := if NDEBUG then NullDeref else AssertFail in
  Iterator_key l it = Err f /\ Next l it = Err f /\ Prev l it = Err f /\
  operator_deref l it = Err f /\ operator_inc l it = Err f.
Proof.
  unfold Valid. destruct it as [[a|]]; simpl; [done|]. intros _.
  unfold Iterator_key, Next, Prev, operator_deref, operator_inc, assert_.
  simpl. by destruct NDEBUG.
Qed.

Lemma compare_refl a : compare_ a a = 0%Z.
Proof. pose proof (compare_antisym a a). lia. Qed.

Lemma Contains_bool l ns k : repr l ns -> exists b, Contains l k = Ok b.
Proof.
  intros Hr. pose proof Hr as (a0 & Hhd & _).
  rewrite (Contains_repr l ns a0) by done. eauto.
Qed.

Lemma Contains_not_after_head l ns k :
  repr l ns -> ~ lt zero k -> Contains l k = Ok (Equal k zero).
Proof.
  intros Hr Hk. pose proof Hr as (a0 & Hhd & _).
  rewrite (Contains_repr l ns a0) by done. simpl.
  by apply ltb_nlt in Hk as ->.
Qed.

(** X4. Keys that are pairwise distinct and ordered after [T(0)] can be
inserted in any order: every [Insert] returns, and the forward traversal
of the list yields exactly those keys, in strictly ascending order. *)
Theorem build_traversal_sorted ks :
  Forall (lt zero) ks -> distinct ks ->
  exists l fwd,
    build ks = Ok l /\ forward_keys l = Ok fwd /\ I1 fwd /\ fwd ≡ₚ ks.
Proof.
  intros Hall Hd.
  destruct (build_sorted ks Hall Hd) as (l & ns & Hb & HI & Hp & Hf).
  exists l, (keys ns). repeat split; try done. by eapply Inv_I1.
Qed.

(** X5. On a list built from pairwise distinct keys, [Contains(k)] for a
key ordered after [T(0)] returns, and is true exactly when one of the
inserted keys equals [k] under the comparator. *)
Theorem Contains_built ks l k :
  build ks = Ok l -> distinct ks -> lt zero k ->
  exists b,
    Contains l k = Ok b /\
    (b = true <-> exists k', k' ∈ ks /\ compare_ k k' = 0%Z).
Proof.
  intros Hb Hd Hk. destruct (build_ok_Inv ks l Hb Hd) as (ns & HI & Hp & _).
  destruct (Contains_bool l ns k (proj1 HI)) as [b Hc]. exists b.
  split; [done|].
  pose proof (Contains_after_head l ns k HI Hk) as Hiff.
  rewrite Hc in Hiff. setoid_rewrite Hp in Hiff. rewrite <- Hiff.
  split; [by intros -> | by intros [=]].
Qed.

(** X6. Insert and look up: on a list built from pairwise distinct keys,
when [k] is ordered after [T(0)] and [Contains(k)] is false, [Insert(k)]
returns, [Contains(k)] is true afterwards, and [Contains] of every key
that does not equal [k] answers as before. *)
Theorem Insert_then_Contains ks l k :
  build ks = Ok l -> distinct ks -> lt zero k -> Contains l k = Ok false ->
  exists l',
    Insert l k = Ok l' /\
    Contains l' k = Ok true /\
    forall k2, compare_ k2 k <> 0%Z -> Contains l' k2 = Contains l k2.
Proof.
  intros Hb Hd Hk Hc. destruct (build_ok_Inv ks l Hb Hd) as (ns & HI & _).
  assert (Hne : Forall (fun k' => compare_ k k' <> 0%Z) (keys ns)).
  { apply Forall_forall. intros k' Hin Heq.
    assert (Contains l k = Ok true) as Ht
      by (apply (Contains_after_head l ns k HI Hk); eauto).
    by rewrite Hc in Ht. }
  destruct (Insert_Inv l ns k HI Hk Hne) as (l' & ns' & Hins & HI' & Hp').
  exists l'. split; [done|]. split.
  - apply (Contains_after_head l' ns' k HI' Hk). exists k.
    split; [rewrite Hp'; by left | apply compare_refl].
  - intros k2 Hk2.
    destruct (Z_lt_dec (compare_ zero k2) 0) as [Hz|Hz]; fold (lt zero k2) in Hz.
    2: { rewrite (Contains_not_after_head l' ns' k2) by (done || apply HI').
         by rewrite (Contains_not_after_head l ns k2) by (done || apply HI). }
    destruct (Contains_bool l ns k2 (proj1 HI)) as [b Hcb].
    destruct (Contains_bool l' ns' k2 (proj1 HI')) as [b' Hcb'].
    pose proof (Contains_after_head l ns k2 HI Hz) as Hiff.
    pose proof (Contains_after_head l' ns' k2 HI' Hz) as Hiff'.
    rewrite Hcb in Hiff |- *. rewrite Hcb' in Hiff' |- *.
    setoid_rewrite Hp' in Hiff'. f_equal.
    destruct b, b'; try done.
    + destruct (proj1 Hiff eq_refl) as (k' & Hin & Heq).
      assert (Ok false = Ok true) as [=]
        by (apply (proj2 Hiff'); exists k'; split; [by right | done]).
    + destruct (proj1 Hiff' eq_refl) as (k' & Hin & Heq).
      apply elem_of_cons in Hin as [->|Hin]; [done|].
      assert (Ok false = Ok true) as [=] by (apply (proj2 Hiff); eauto).
Qed.

(** X7. Inserting a key that [Contains] reports: in a build with
assertions the call stops at the assertion; under NDEBUG it returns, the
traversal has the key twice, and is no longer strictly ascending. *)
Theorem Insert_duplicate ks l k :
  build ks = Ok l -> distinct ks -> lt zero k -> Contains l k = Ok true ->
  (NDEBUG = false -> Insert l k = Err AssertFail) /\
  (NDEBUG = true ->
     exists l' fwd,
       Insert l k = Ok l' /\ forward_keys l' = Ok fwd /\
       fwd ≡ₚ k :: ks /\ ~ I1 fwd).
Proof.
  intros Hb Hd Hk Hc.
  destruct (build_ok_Inv ks l Hb Hd) as (ns & HI & Hp & _).
  pose proof HI as [Hr _]. pose proof Hr as (a0 & Hhd & _).
  rewrite (Contains_repr l ns a0) in Hc by done. simpl in Hc.
  apply ltb_lt in Hk as Hkb. rewrite Hkb in Hc. injection Hc as Hdup.
  destruct (Insert_after_head l ns k Hr Hk) as (l' & Hr' & Hins).
  rewrite Hdup in Hins. split; intros HN; rewrite HN in Hins; [done|].
  exists l', (keys (before k ns ++ (length (heap l), k) :: from k ns)).
  split; [done|]. split; [by apply forward_keys_repr|].
  split; [by rewrite insert_perm, Hp|].
  rewrite keys_app. intros Hs%StronglySorted_app_1_r.
  destruct (from k ns) as [|m R]; [done|]. simpl in Hs, Hdup.
  apply StronglySorted_cons in Hs as [Hall _].
  apply Forall_cons in Hall as [Hkm _]. apply lt_ne in Hkm as [_ Hkm].
  unfold Equal in Hdup. by apply Z.eqb_eq in Hdup.
Qed.

Lemma repr_lookup_next l ns B n R :
  repr l ns -> ns = B ++ n :: R ->
  heap l !! n.1 = Some (mkNode n.2 (first_ptr R)).
Proof.
  intros (a0 & _ & Hc) ->.
  destruct (chain_app_inv (heap l) ((a0, zero) :: B) (n :: R) (Some a0) Hc)
    as (q & Hq & _).
  destruct Hq as [_ (nx & Hn & Hq)]. by rewrite <- (chain_first _ _ _ Hq).
Qed.

Lemma Iterator_key_repr l ns B n R :
  repr l ns -> ns = B ++ n :: R ->
  Iterator_key l (mkIterator (Some n.1)) = Ok n.2.
Proof.
  intros Hr Hns. unfold Iterator_key, assert_, deref. simpl.
  rewrite (repr_lookup_next l ns B n R Hr Hns). by destruct NDEBUG.
Qed.

Lemma Next_repr l ns B n R :
  repr l ns -> ns = B ++ n :: R ->
  Next l (mkIterator (Some n.1)) = Ok (mkIterator (first_ptr R)).
Proof.
  intros Hr Hns. unfold Next, Node_Next, assert_, deref. simpl.
  rewrite (repr_lookup_next l ns B n R Hr Hns). by destruct NDEBUG.
Qed.

Lemma before_all k ns : from k ns = [] -> Forall (fun k' => lt k' k) (keys ns).
Proof.
  intros HR. pose proof (before_lt k ns) as Hb.
  rewrite <- (before_from k ns), HR, app_nil_r.
  unfold keys. by apply Forall_fmap.
Qed.

(** In a sorted chain, no node from the one the scan stops at onwards
has a key before [k]. *)
Lemma from_not_before k ns y :
  I1 (keys ns) -> y ∈ from k ns -> ~ lt y.2 k.
Proof.
  intros Hs Hy. rewrite <- (before_from k ns), keys_app in Hs.
  apply StronglySorted_app_1_r in Hs.
  destruct (from k ns) as [|m R] eqn:HR; [by apply elem_of_nil in Hy|].
  pose proof (from_head _ _ _ _ HR) as Hm.
  apply elem_of_cons in Hy as [->|Hy]; [done|].
  simpl in Hs. apply StronglySorted_cons in Hs as [Hall _].
  rewrite Forall_forall in Hall. intros Hlt. apply Hm.
  eapply compare_trans; [|exact Hlt]. by apply Hall, keys_elem.
Qed.

(** X8. On a list built from pairwise distinct keys,
[FindGreaterOrEqual(k, nullptr)] for a key ordered after [T(0)] returns
[nullptr] exactly when every inserted key is before [k]; otherwise it
returns the node of the smallest inserted key that is not before [k]. *)
Theorem FindGreaterOrEqual_built ks l k :
  build ks = Ok l -> distinct ks -> lt zero k ->
  exists x,
    FindGreaterOrEqual l k None = Ok (x, None) /\
    (x = None <-> Forall (fun k' => lt k' k) ks) /\
    (forall a, x = Some a ->
       exists n,
         heap l !! a = Some n /\ key n ∈ ks /\ ~ lt (key n) k /\
         forall k', k' ∈ ks -> ~ lt k' k -> k' = key n \/ lt (key n) k').
Proof.
  intros Hb Hd Hk. destruct (build_ok_Inv ks l Hb Hd) as (ns & HI & Hp & _).
  pose proof HI as [Hr _]. pose proof Hr as (a0 & Hhd & _).
  pose proof (Inv_I1 _ _ HI) as Hs.
  eexists. split; [by apply (FindGreaterOrEqual_repr l ns a0)|]. simpl.
  apply ltb_lt in Hk as ->. rewrite <- Hp.
  destruct (from k ns) as [|m R] eqn:HR; simpl.
  - split; [|done]. split; [intros _; by apply before_all | done].
  - split.
    { split; [done|]. intros Hall%from_all_before. by rewrite HR in Hall. }
    intros a [= <-].
    assert (Hns : ns = before k ns ++ m :: R) by (by rewrite <- HR, before_from).
    eexists. split; [by eapply repr_lookup_next|]. simpl.
    assert (Hm : m ∈ ns) by (apply (from_elem k); rewrite HR; by left).
    split; [rewrite <- Hp; by apply keys_elem|].
    split; [by eapply from_head|].
    intros k' Hk' Hnlt. rewrite <- Hp in Hk'.
    rewrite Hns, keys_app in Hk', Hs.
    apply elem_of_app in Hk' as [Hk'|Hk'].
    { apply list_elem_of_fmap in Hk' as (y & -> & Hy).
      pose proof (before_lt k ns) as Hbl. rewrite Forall_forall in Hbl.
      by apply Hbl in Hy. }
    apply StronglySorted_app_1_r in Hs. simpl in Hs, Hk'.
    apply StronglySorted_cons in Hs as [Hall _].
    apply elem_of_cons in Hk' as [->|Hk']; [by left|].
    right. rewrite Forall_forall in Hall. by apply Hall.
Qed.

(** X9. On a non-empty list built from pairwise distinct keys,
[SeekToFirst()] is at the least inserted key and [SeekToLast()] at the
greatest. *)
Theorem first_last_extremes ks l :
  build ks = Ok l -> distinct ks -> ks <> [] ->
  exists itf itl kf kl,
    SeekToFirst l Iterator_new = Ok itf /\ Iterator_key l itf = Ok kf /\
    SeekToLast l Iterator_new = Ok itl /\ Iterator_key l itl = Ok kl /\
    kf ∈ ks /\ kl ∈ ks /\
    forall k, k ∈ ks -> (k = kf \/ lt kf k) /\ (k = kl \/ lt k kl).
Proof.
  intros Hb Hd Hne. destruct (build_ok_Inv ks l Hb Hd) as (ns & HI & Hp & _).
  pose proof HI as [Hr _]. pose proof (Inv_I1 _ _ HI) as Hs.
  destruct ns as [|n0 ns0] eqn:Hns0.
  { simpl in Hp. by apply Permutation_nil in Hp. }
  destruct (last ns) as [nl|] eqn:Hlast;
    [|apply last_None in Hlast; congruence].
  apply last_Some in Hlast as [B HB]. rewrite <- Hns0 in *.
  exists (mkIterator (Some n0.1)), (mkIterator (Some nl.1)), n0.2, nl.2.
  split; [rewrite (SeekToFirst_repr l ns) by done; by rewrite Hns0|].
  split; [by apply (Iterator_key_repr l ns [] n0 ns0)|].
  split; [rewrite (SeekToLast_repr l ns) by done; by rewrite HB, last_ptr_snoc|].
  split; [by apply (Iterator_key_repr l ns B nl [])|].
  rewrite <- Hp.
  split; [rewrite Hns0; apply keys_elem; by left|].
  split; [rewrite HB; apply keys_elem, elem_of_app; right; by left|].
  intros k Hk. rewrite <- Hp in Hk. split.
  - rewrite Hns0 in Hs, Hk. simpl in Hs, Hk.
    apply StronglySorted_cons in Hs as [Hall _].
    apply elem_of_cons in Hk as [->|Hk]; [by left|].
    right. rewrite Forall_forall in Hall. by apply Hall.
  - rewrite HB, keys_app in Hs, Hk.
    apply elem_of_app in Hk as [Hk|Hk].
    + right. eapply StronglySorted_app_1_elem_of; [exact Hs|done|by left].
    + left. simpl in Hk. apply elem_of_cons in Hk as [->|Hk]; [done|].
      by apply elem_of_nil in Hk.
Qed.

(** X10. On a list that satisfies I1, [Prev()] undoes [Next()] and
[Next()] undoes [Prev()] between two neighbouring stored nodes. *)
Theorem Prev_Next_round_trip l ns B m n R :
  repr l ns -> I1 (keys ns) -> ns = B ++ m :: n :: R ->
  (let* it := Prev l (mkIterator (Some n.1)) in Next l it)
  = Ok (mkIterator (Some n.1)) /\
  (let* it := Next l (mkIterator (Some m.1)) in Prev l it)
  = Ok (mkIterator (Some m.1)).
Proof.
  intros Hr Hs Hns.
  assert (Hns' : ns = (B ++ [m]) ++ n :: R) by (by rewrite <- app_assoc).
  rewrite (Prev_repr l ns _ n R Hr Hs Hns'), last_ptr_snoc.
  rewrite (Next_repr l ns B m (n :: R) Hr Hns). simpl.
  rewrite (Next_repr l ns B m (n :: R) Hr Hns).
  rewrite (Prev_repr l ns _ n R Hr Hs Hns'), last_ptr_snoc. done.
Qed.

(** X11. [FindLessThan] where it is safe: on a list that satisfies I1,
when some stored key is not before [k], the scan returns without reading
a null successor.  The result is the head when no stored key is before
[k], and else the stored node with the largest key before [k]. *)
Theorem FindLessThan_safe l ns k x :
  repr l ns -> I1 (keys ns) -> x ∈ keys ns -> ~ lt x k ->
  exists p,
    FindLessThan l k = Ok p /\
    ((p = head_ l /\ Forall (fun k' => ~ lt k' k) (keys ns)) \/
     (exists n,
        n ∈ ns /\ p = Some n.1 /\ lt n.2 k /\
        forall y, y ∈ ns -> lt y.2 k -> y = n \/ lt y.2 n.2)).
Proof.
  intros Hr Hs Hx Hnlt. pose proof Hr as (a0 & Hhd & _).
  rewrite (FindLessThan_repr l ns a0) by done.
  destruct (from k ns) as [|m R] eqn:HR.
  { apply before_all in HR. rewrite Forall_forall in HR. by apply HR in Hx. }
  eexists. split; [done|].
  assert (Hfrom : forall y, y ∈ m :: R -> ~ lt y.2 k).
  { intros y Hy. apply (from_not_before k ns y Hs). by rewrite HR. }
  assert (Hns : ns = before k ns ++ m :: R) by (by rewrite <- HR, before_from).
  pose proof (before_lt k ns) as Hbl. rewrite Forall_forall in Hbl.
  destruct (last (before k ns)) as [n|] eqn:Hlast.
  - right. exists n. unfold last_ptr. rewrite Hlast.
    pose proof (last_Some_elem_of _ _ Hlast) as Hn.
    split; [rewrite Hns; apply elem_of_app; by left|].
    split; [done|]. split; [by apply Hbl|].
    intros y Hy Hlt. rewrite Hns in Hy.
    apply elem_of_app in Hy as [Hy|Hy]; [|by apply Hfrom in Hy].
    apply last_Some in Hlast as [B' HB']. rewrite HB' in Hy, Hns.
    apply elem_of_app in Hy as [Hy|Hy].
    + right. rewrite Hns, <- app_assoc, keys_app in Hs.
      eapply StronglySorted_app_1_elem_of; [exact Hs|by apply keys_elem|].
      by left.
    + left. apply elem_of_cons in Hy as [->|Hy]; [done|].
      by apply elem_of_nil in Hy.
  - left. unfold last_ptr. rewrite Hlast. split; [done|].
    apply last_None in Hlast. rewrite Hlast in Hns. simpl in Hns.
    apply Forall_forall. intros k' Hk'.
    apply list_elem_of_fmap in Hk' as (y & -> & Hy).
    apply Hfrom. by rewrite <- Hns.
Qed.

Lemma Insert_all_end : forall ks l l',
  Insert_all l ks = Ok l' -> end_ l' = end_ l.
Proof.
  induction ks as [|k ks IH]; intros l l'; simpl; [by intros [= <-]|].
  destruct (Insert l k) as [l1|] eqn:Hins; simpl; [|done].
  intros Hrec%IH. rewrite Hrec.
  by apply Insert_keeps_nodes in Hins as (_ & _ & ? & _).
Qed.

Lemma build_end ks l : build ks = Ok l -> end_ l = mkIterator None.
Proof.
  unfold build. rewrite OrderedList_new_eq. simpl.
  by intros ->%Insert_all_end.
Qed.

Lemma range_for_loop_spec l : forall ns p fuel,
  chain (heap l) p ns -> length ns < fuel ->
  range_for_loop fuel l (mkIterator p) (mkIterator None) = Ok (keys ns).
Proof.
  induction ns as [|n ns IH]; intros p fuel Hc Hfuel;
    (destruct fuel as [|fuel]; [simpl in Hfuel; lia|]); simpl in Hc, Hfuel.
  - by subst p.
  - destruct Hc as [-> (nx & Hn & Hc)].
    cbn [range_for_loop]. unfold operator_ne. cbn [node_].
    rewrite ptr_eqb_ne by done. cbn [negb].
    unfold operator_deref, operator_inc, Valid, Node_Next, deref, assert_.
    simpl. rewrite Hn.
    destruct NDEBUG; simpl; by rewrite (IH nx fuel Hc) by lia.
Qed.

(** X12. The range-based [for] loop over a list built from pairwise
distinct keys ends, leaves the nodes as they are, and hands the body
exactly the inserted keys in strictly ascending order: the values that
[SeekToFirst()] and [Next()] visit. *)
Theorem range_for_visits_sorted ks l :
  build ks = Ok l -> distinct ks ->
  exists l' out,
    range_for l = Ok (l', out) /\
    heap l' = heap l /\ head_ l' = head_ l /\
    I1 out /\ out ≡ₚ ks /\ forward_keys l = Ok out.
Proof.
  intros Hb Hd. destruct (build_ok_Inv ks l Hb Hd) as (ns & HI & Hp & _).
  pose proof HI as [Hr _]. pose proof (repr_bound _ _ Hr) as Hbound.
  unfold range_for, begin, end'.
  rewrite (SeekToFirst_repr l ns) by done. cbn [bind end_].
  rewrite (build_end ks l Hb).
  destruct Hr as (a0 & Hhd & _ & (nx & Hn & Hc)).
  rewrite (range_for_loop_spec _ ns).
  - cbn [bind]. do 2 eexists. split; [reflexivity|].
    split; [done|]. split; [done|]. split; [by eapply Inv_I1|].
    split; [done|]. apply forward_keys_repr, HI.
  - simpl. by rewrite <- (chain_first _ _ _ Hc).
  - unfold loop_bound in *. simpl. lia.
Qed.

(** X13. Iterators outlive insertions: after an [Insert] that returns,
an iterator at a stored node still reads that node's key, and [Next()]
moves it where it did before or to the node just inserted. *)
Theorem Insert_keeps_iterators l ns k l' n :
  repr l ns -> n ∈ ns -> Insert l k = Ok l' ->
  Iterator_key l' (mkIterator (Some n.1)) = Ok n.2 /\
  (Next l' (mkIterator (Some n.1)) = Next l (mkIterator (Some n.1)) \/
   Next l' (mkIterator (Some n.1))
   = Ok (mkIterator (Some (length (heap l))))).
Proof.
  intros Hr Hn Hins.
  apply list_elem_of_split in Hn as (B & R & Hns).
  pose proof (repr_lookup_next l ns B n R Hr Hns) as Hlook.
  pose proof (lookup_lt_Some _ _ _ Hlook) as Hlt.
  apply Insert_ok_inv in Hins as (pa & np & Hnp & Hh & _).
  unfold Iterator_key, Next, Node_Next, assert_, deref. simpl.
  rewrite Hh, Hlook.
  destruct (decide (n.1 = pa)) as [Heq|Hne].
  - rewrite Heq in Hlook |- *.
    pose proof (eq_trans (eq_sym Hnp) Hlook) as Hnode. injection Hnode as ->.
    rewrite list_lookup_insert_eq
      by (rewrite length_insert, length_app; simpl; lia).
    simpl. destruct NDEBUG; simpl; (split; [done|by right]).
  - rewrite list_lookup_insert_ne by done.
    rewrite list_lookup_insert_ne by lia.
    rewrite (lookup_app_l_Some _ _ _ _ Hlook).
    destruct NDEBUG; simpl; (split; [done|by left]).
Qed.

(** X14. On a list that satisfies I1, [Next()] from the stored node [n]
moves the iterator to the stored node with the smallest key after the key
of [n], and leaves it invalid exactly when [n] is the last node. *)
Theorem Next_steps_forward l ns B n R :
  repr l ns -> I1 (keys ns) -> ns = B ++ n :: R ->
  exists it',
    Next l (mkIterator (Some n.1)) = Ok it' /\
    node_ it' = first_ptr R /\
    (Valid it' = false <-> R = []) /\
    (forall m, head R = Some m ->
       lt n.2 m.2 /\
       forall x, x ∈ ns -> lt n.2 x.2 -> x = m \/ lt m.2 x.2).
Proof.
  intros Hr Hs Hns. eexists. split; [by eapply Next_repr|].
  split; [done|]. split.
  { unfold Valid. simpl. by destruct R. }
  intros m Hm. destruct R as [|m' R']; [done|]. injection Hm as ->.
  rewrite Hns, keys_app in Hs. simpl in Hs.
  pose proof (StronglySorted_app_1_r _ _ _ Hs) as Hs2.
  apply StronglySorted_cons in Hs2 as [Hn Hs2].
  apply StronglySorted_cons in Hs2 as [Hm _].
  apply Forall_cons in Hn as [Hnm Hn]. split; [done|].
  intros x Hx Hlt. rewrite Hns in Hx.
  apply elem_of_app in Hx as [Hx|Hx].
  { exfalso. apply (lt_asym _ _ Hlt).
    eapply StronglySorted_app_1_elem_of; [exact Hs|by apply keys_elem|by left]. }
  apply elem_of_cons in Hx as [->|Hx]; [by apply lt_irrefl in Hlt|].
  apply elem_of_cons in Hx as [->|Hx]; [by left|].
  right. rewrite Forall_forall in Hm. by apply Hm, keys_elem.
Qed.

Lemma Insert_all_repr_length : forall ks l ns l',
  repr l ns -> Insert_all l ks = Ok l' ->
  exists ns', repr l' ns' /\ length ns' = length ks + length ns.
Proof.
  induction ks as [|k ks IH]; intros l ns l' Hr; simpl.
  { intros [= <-]. eauto. }
  destruct (Z_lt_dec (compare_ zero k) 0) as [Hk|Hk]; fold (lt zero k) in Hk.
  - destruct (Insert_after_head l ns k Hr Hk) as (l1 & Hr1 & ->).
    destruct (negb NDEBUG && dup k (from k ns)); simpl; [done|].
    intros Hrec. destruct (IH _ _ _ Hr1 Hrec) as (ns' & Hr' & Hlen).
    exists ns'. split; [done|]. rewrite Hlen, length_app. simpl.
    rewrite <- (before_from k ns) at 3. rewrite length_app. lia.
  - rewrite (Insert_not_after_head l ns k Hr Hk).
    by destruct (negb NDEBUG && Equal k zero).
Qed.

Lemma Insert_all_heap_length : forall ks l l',
  Insert_all l ks = Ok l' -> length (heap l') = length ks + length (heap l).
Proof.
  induction ks as [|k ks IH]; intros l l'; simpl; [by intros [= <-]|].
  destruct (Insert l k) as [l1|] eqn:Hins; simpl; [|done].
  intros Hrec%IH. rewrite Hrec.
  apply Insert_keeps_nodes in Hins as (_ & _ & _ & -> & _). lia.
Qed.

(** X15. Whatever the keys, a list that a sequence of [Insert] calls has
built holds one node per call besides the head, all of them on the chain:
the forward traversal ends and yields as many keys as were inserted. *)
Theorem build_counts ks l :
  build ks = Ok l ->
  length (heap l) = S (length ks) /\
  exists fwd, forward_keys l = Ok fwd /\ length fwd = length ks.
Proof.
  unfold build. rewrite OrderedList_new_eq. simpl. intros Hb. split.
  - rewrite (Insert_all_heap_length _ _ _ Hb). simpl. lia.
  - pose proof (repr_new _ OrderedList_new_eq) as Hr0.
    destruct (Insert_all_repr_length _ _ [] _ Hr0 Hb) as (ns & Hr & Hlen).
    exists (keys ns). split; [by apply forward_keys_repr|].
    unfold keys. rewrite length_fmap, Hlen. simpl. lia.
Qed.

End OrderedList.

Arguments key {T} _.
Arguments next_ {T} _.
Arguments mkNode {T} _ _.
Arguments heap {T} _.
Arguments head_ {T} _.
Arguments begin_ {T} _.
Arguments end_ {T} _.
Arguments mkList {T} _ _ _ _.
Arguments OrderedList_new {T} zero.
Arguments Insert {T} compare_ NDEBUG l k.
Arguments Contains {T} compare_ l k.
Arguments FindGreaterOrEqual {T} compare_ l k prev.
Arguments FindLessThan {T} compare_ l k.
Arguments FindLast {T} l.
Arguments Iterator_key {T} NDEBUG l it.
Arguments Next {T} NDEBUG l it.
Arguments Prev {T} compare_ NDEBUG l it.
Arguments Seek {T} compare_ l it target.
Arguments SeekToFirst {T} l it.
Arguments SeekToLast {T} l it.
Arguments forward_keys {T} NDEBUG l.
Arguments backward_keys {T} compare_ NDEBUG l.
Arguments build {T} compare_ zero NDEBUG ks.
Arguments lt {T} compare_ a b.
Arguments distinct {T} compare_ ks.
Arguments repr {T} zero l ns.
Arguments I1 {T} compare_ ks.
Arguments keys {T} ns.
Arguments last_ptr {T} d ns.

(** ** The test program's instance *)

Lemma Comparator_lt a b : lt U32.Comparator a b <-> (a < b)%Z.
Proof.
  unfold lt, U32.Comparator.
  destruct (Z.ltb_spec a b); [lia|]. destruct (Z.eqb_spec a b); simpl; lia.
Qed.

Lemma Comparator_eq a b : U32.Comparator a b = 0%Z <-> a = b.
Proof.
  unfold U32.Comparator.
  destruct (Z.ltb_spec a b); [lia|]. destruct (Z.eqb_spec a b); simpl; lia.
Qed.

Lemma Comparator_antisym a b :
  (U32.Comparator a b < 0 <-> 0 < U32.Comparator b a)%Z.
Proof.
  unfold U32.Comparator.
  destruct (Z.ltb_spec a b), (Z.ltb_spec b a),
    (Z.eqb_spec a b), (Z.eqb_spec b a); simpl; lia.
Qed.

Lemma Comparator_trans a b c :
  lt U32.Comparator a b -> lt U32.Comparator b c -> lt U32.Comparator a c.
Proof. rewrite !Comparator_lt. lia. Qed.

Lemma main_keys_distinct : distinct U32.Comparator U32.main_keys.
Proof.
  unfold distinct, U32.main_keys.
  repeat (constructor; [repeat (constructor; [by vm_compute|]); constructor|]).
  constructor.
Qed.

(** C9. On a freshly constructed list, [Contains(5)] is false and
[SeekToFirst()] and [SeekToLast()] leave the iterator invalid. *)
Theorem empty_list_example :
  exists l,
    OrderedList_new 0%Z = Ok l /\
    Contains U32.Comparator l 5%Z = Ok false /\
    (exists it, SeekToFirst l Iterator_new = Ok it /\ Valid it = false) /\
    (exists it, SeekToLast l Iterator_new = Ok it /\ Valid it = false).
Proof.
  eexists. split; [reflexivity|].
  split; [reflexivity|].
  split; eexists; split; reflexivity.
Qed.

(** C1. [Insert(0)] on a fresh list: [0] is a [uint32_t] key and a
sequence of pairwise distinct keys, but the scan stops at the head, whose
key is [0]; with assertions the duplicate check fails on the head, and
without them [prev] is dereferenced while it is still [nullptr].  No list
is built, so no traversal yields the key. *)
Theorem insert_key_zero_fails :
  U32.in_range 0%Z /\
  distinct U32.Comparator [0%Z] /\
  build U32.Comparator 0%Z false [0%Z] = Err AssertFail /\
  build U32.Comparator 0%Z true [0%Z] = Err NullDeref.
Proof.
  split; [unfold U32.in_range; lia|].
  split; [repeat constructor|].
  split; reflexivity.
Qed.

(** C2. [Contains(0)] is true on the list of the test program, and on
the empty list, although [0] was never inserted: the scan of
[FindGreaterOrEqual] returns the head and [Contains] compares its key. *)
Theorem contains_reports_head_key (ndebug : bool) :
  (0%Z ∉ U32.main_keys) /\
  (exists l,
     build U32.Comparator 0%Z ndebug U32.main_keys = Ok l /\
     Contains U32.Comparator l 0%Z = Ok true) /\
  (exists l,
     build U32.Comparator 0%Z ndebug [] = Ok l /\
     Contains U32.Comparator l 0%Z = Ok true).
Proof.
  split.
  { unfold U32.main_keys. rewrite !not_elem_of_cons.
    repeat (split; [done|]). apply not_elem_of_nil. }
  destruct ndebug; (split; eexists; (split; [by vm_compute|reflexivity])).
Qed.

(** C3. The head is among the results of the queries: on the list of the
test program [FindGreaterOrEqual(0, nullptr)] returns the head itself,
whose key [0] no traversal yields, and [Contains(0)] answers from that
node.  [Contains] has no test against the head as [SeekToLast] and [Prev]
have, which here leave the iterator at a stored node. *)
Theorem scan_returns_head (ndebug : bool) :
  exists l,
    build U32.Comparator 0%Z ndebug U32.main_keys = Ok l /\
    forward_keys ndebug l = Ok [1; 65; 342; 413; 512; 4552; 31435]%Z /\
    (exists nx, deref Z (heap l) (head_ l) = Ok (mkNode 0%Z nx)) /\
    FindGreaterOrEqual U32.Comparator l 0%Z None = Ok (head_ l, None) /\
    Contains U32.Comparator l 0%Z = Ok true /\
    (exists it,
       SeekToLast l Iterator_new = Ok it /\
       Valid it = true /\ node_ it <> head_ l).
Proof.
  destruct ndebug; eexists; (split; [by vm_compute|]);
    (split; [reflexivity|]); (split; [eexists; reflexivity|]);
    (split; [reflexivity|]); (split; [reflexivity|]);
    eexists; (split; [reflexivity|]); (split; [reflexivity|]); done.
Qed.

(** C4. [FindLessThan] on a list whose keys are all ordered before the
key reads the key of a null successor.  On the empty list this is reached
through the public operations: [Seek(0)] leaves the iterator valid, at the
head, and [Prev()] then calls [FindLessThan(0)]. *)
Theorem FindLessThan_reads_null_successor (ndebug : bool) :
  (exists l,
     OrderedList_new 0%Z = Ok l /\
     FindLessThan U32.Comparator l 5%Z = Err NullDeref /\
     exists it,
       Seek U32.Comparator l Iterator_new 0%Z = Ok it /\
       Valid it = true /\
       Prev U32.Comparator ndebug l it = Err NullDeref) /\
  (exists l,
     build U32.Comparator 0%Z ndebug U32.main_keys = Ok l /\
     FindLessThan U32.Comparator l 40000%Z = Err NullDeref).
Proof.
  split.
  - eexists. split; [reflexivity|]. split; [reflexivity|].
    eexists. split; [reflexivity|]. split; [reflexivity|].
    by destruct ndebug.
  - destruct ndebug; eexists; (split; [by vm_compute|reflexivity]).
Qed.

(** C5. The node [Seek] is to take, the result of
[FindGreaterOrEqual(k, nullptr)], is not always the node of the smallest
stored key that is not before [k]: for [k = 0] on the empty list the scan
returns the head, a node, although no key is stored; on the list that
holds [5] it returns the head, with key [0], and not the node of [5],
which is the head's successor and the result of the scan for [5]. *)
Theorem scan_for_zero_returns_head (ndebug : bool) :
  (exists l,
     OrderedList_new 0%Z = Ok l /\
     forward_keys ndebug l = Ok [] /\
     FindGreaterOrEqual U32.Comparator l 0%Z None = Ok (head_ l, None) /\
     head_ l <> None) /\
  (exists l,
     build U32.Comparator 0%Z ndebug [5%Z] = Ok l /\
     forward_keys ndebug l = Ok [5%Z] /\
     FindGreaterOrEqual U32.Comparator l 0%Z None = Ok (head_ l, None) /\
     (exists nx, deref Z (heap l) (head_ l) = Ok (mkNode 0%Z nx) /\
        FindGreaterOrEqual U32.Comparator l 5%Z None = Ok (nx, None) /\
        nx <> head_ l /\
        deref Z (heap l) nx = Ok (mkNode 5%Z None))).
Proof.
  split.
  - eexists. split; [reflexivity|].
    split; [by destruct ndebug|]. split; [reflexivity|]. done.
  - destruct ndebug; eexists; (split; [by vm_compute|]);
      (split; [reflexivity|]); (split; [reflexivity|]);
      eexists; (split; [reflexivity|]); (split; [reflexivity|]);
      (split; [done|reflexivity]).
Qed.

(** The list of the test program, for C6. *)
Lemma head_key_decides_prev_witness :
  exists l,
    build U32.Comparator 0%Z false U32.main_keys = Ok l /\
    (exists a0 nx, head_ l = Some a0 /\ heap l !! a0 = Some (mkNode 0%Z nx)) /\
    (lt U32.Comparator 0%Z 7%Z ->
       (exists x p,
          FindGreaterOrEqual U32.Comparator l 7%Z (Some None)
          = Ok (x, Some (Some p))) /\
       Insert U32.Comparator false l 7%Z <> Err NullDeref) /\
    (~ lt U32.Comparator 0%Z 7%Z ->
       FindGreaterOrEqual U32.Comparator l 7%Z (Some None)
       = Ok (head_ l, Some None) /\
       Insert U32.Comparator false l 7%Z
       = if negb false && Equal Z U32.Comparator 7%Z 0%Z
         then Err AssertFail else Err NullDeref).
Proof.
  eexists. split; [by vm_compute|].
  apply (head_key_decides_prev Z U32.Comparator 0%Z false U32.main_keys).
  by vm_compute.
Defined.

(** The list built from [5] and [3], with the iterator at [5], for C7. *)
Lemma Prev_steps_back_witness :
  let l := mkList [mkNode 0%Z (Some 2); mkNode 5%Z None; mkNode 3%Z (Some 1)]
                  Iterator_new Iterator_new (Some 0) in
  let ns := [(2, 3%Z); (1, 5%Z)] in
  build U32.Comparator 0%Z false [5%Z; 3%Z] = Ok l /\
  repr 0%Z l ns /\
  I1 U32.Comparator (keys ns) /\
  exists it',
    Prev U32.Comparator false l (mkIterator (Some 1)) = Ok it' /\
    node_ it' = last_ptr None [(2, 3%Z)] /\
    (Valid it' = false <-> [(2, 3%Z)] = []) /\
    (forall m, last [(2, 3%Z)] = Some m ->
       lt U32.Comparator m.2 5%Z /\
       forall x, x ∈ ns -> lt U32.Comparator x.2 5%Z ->
                 x = m \/ lt U32.Comparator x.2 m.2).
Proof.
  intros l ns.
  assert (Hr : repr 0%Z l ns).
  { exists 0. split; [reflexivity|]. simpl.
    repeat (split; [reflexivity|]; eexists; split; [reflexivity|]).
    reflexivity. }
  assert (Hs : I1 U32.Comparator (keys ns)).
  { unfold I1. simpl. repeat constructor. }
  split; [reflexivity|]. split; [exact Hr|]. split; [exact Hs|].
  apply (Prev_steps_back Z U32.Comparator 0%Z false Comparator_antisym
           l ns [(2, 3%Z)] (1, 5%Z) [] Hr Hs).
  reflexivity.
Defined.

(** The list of the test program, for C8. *)
Lemma forward_backward_symmetry_witness :
  exists l,
    build U32.Comparator 0%Z false U32.main_keys = Ok l /\
    distinct U32.Comparator U32.main_keys /\
    exists fwd,
      forward_keys false l = Ok fwd /\
      backward_keys U32.Comparator false l = Ok (rev fwd).
Proof.
  eexists. split; [by vm_compute|].
  split; [exact main_keys_distinct|].
  apply (forward_backward_symmetry Z U32.Comparator 0%Z false
           Comparator_antisym Comparator_trans U32.main_keys).
  - by vm_compute.
  - exact main_keys_distinct.
Defined.

(** ** Instances of the further properties

    The fresh list, the list after [Insert(5)] and [Insert(3)], and the
    list of the test program. *)

Abbreviation fresh :=
  (mkList [mkNode 0%Z None] (mkIterator None) Iterator_new (Some 0)).
Abbreviation list53 :=
  (mkList [mkNode 0%Z (Some 2); mkNode 5%Z None; mkNode 3%Z (Some 1)]
          (mkIterator None) Iterator_new (Some 0)).
Abbreviation nodes53 := [(2, 3%Z); (1, 5%Z)].

Lemma fresh_repr : repr 0%Z fresh [].
Proof. exists 0. split; [done|]. simpl. split; [done|]. by exists None. Qed.

Lemma list53_built : build U32.Comparator 0%Z false [5%Z; 3%Z] = Ok list53.
Proof. reflexivity. Qed.

Lemma list53_repr : repr 0%Z list53 nodes53.
Proof.
  exists 0. split; [reflexivity|]. simpl.
  repeat (split; [reflexivity|]; eexists; split; [reflexivity|]).
  reflexivity.
Qed.

Lemma list53_sorted : I1 U32.Comparator (keys nodes53).
Proof. unfold I1. simpl. repeat constructor. Qed.

Lemma main_keys_after_zero : Forall (lt U32.Comparator 0%Z) U32.main_keys.
Proof. unfold U32.main_keys. repeat constructor. Qed.

Lemma Insert_keeps_nodes_witness :
  exists l',
    Insert U32.Comparator false list53 4%Z = Ok l' /\
    head_ l' = head_ list53 /\ begin_ l' = begin_ list53 /\
    end_ l' = end_ list53 /\
    length (heap l') = S (length (heap list53)) /\
    (exists n', heap l' !! length (heap list53) = Some n' /\ key n' = 4%Z) /\
    (forall a n, heap list53 !! a = Some n ->
       exists n', heap l' !! a = Some n' /\ key n' = key n).
Proof.
  eexists. split; [reflexivity|].
  apply (Insert_keeps_nodes Z U32.Comparator false list53 4%Z).
  reflexivity.
Defined.

Lemma Insert_ok_iff_witness :
  repr 0%Z list53 nodes53 /\
  (is_ok (Insert U32.Comparator false list53 5%Z) = true
   <-> lt U32.Comparator 0%Z 5%Z /\
       (false = true \/ Contains U32.Comparator list53 5%Z = Ok false)) /\
  (Insert U32.Comparator false list53 5%Z = Err AssertFail
   <-> false = false /\ Contains U32.Comparator list53 5%Z = Ok true) /\
  (Insert U32.Comparator false list53 5%Z = Err NullDeref
   <-> ~ lt U32.Comparator 0%Z 5%Z /\
       (false = true \/ Contains U32.Comparator list53 5%Z = Ok false)) /\
  (is_ok (Insert U32.Comparator false list53 5%Z) = false ->
   Insert U32.Comparator false list53 5%Z = Err AssertFail \/
   Insert U32.Comparator false list53 5%Z = Err NullDeref).
Proof.
  split; [exact list53_repr|].
  apply (Insert_ok_iff Z U32.Comparator 0%Z false list53 nodes53 5%Z).
  exact list53_repr.
Defined.

Lemma invalid_iterator_faults_witness :
  Valid Iterator_new = false /\
  let f := if true then NullDeref else AssertFail in
  Iterator_key true list53 Iterator_new = Err f /\
  Next true list53 Iterator_new = Err f /\
  Prev U32.Comparator true list53 Iterator_new = Err f /\
  operator_deref Z true list53 Iterator_new = Err f /\
  operator_inc Z true list53 Iterator_new = Err f.
Proof.
  split; [reflexivity|].
  apply (invalid_iterator_faults Z U32.Comparator true list53 Iterator_new).
  reflexivity.
Defined.

Lemma build_traversal_sorted_witness :
  Forall (lt U32.Comparator 0%Z) U32.main_keys /\
  distinct U32.Comparator U32.main_keys /\
  exists l fwd,
    build U32.Comparator 0%Z false U32.main_keys = Ok l /\
    forward_keys false l = Ok fwd /\
    I1 U32.Comparator fwd /\ fwd ≡ₚ U32.main_keys.
Proof.
  split; [exact main_keys_after_zero|].
  split; [exact main_keys_distinct|].
  apply (build_traversal_sorted Z U32.Comparator 0%Z false
           Comparator_antisym Comparator_trans U32.main_keys).
  - exact main_keys_after_zero.
  - exact main_keys_distinct.
Defined.

Lemma Contains_built_witness :
  exists l,
    build U32.Comparator 0%Z false U32.main_keys = Ok l /\
    distinct U32.Comparator U32.main_keys /\
    lt U32.Comparator 0%Z 65%Z /\
    exists b,
      Contains U32.Comparator l 65%Z = Ok b /\
      (b = true
       <-> exists k', k' ∈ U32.main_keys /\ U32.Comparator 65%Z k' = 0%Z).
Proof.
  eexists. split; [by vm_compute|].
  split; [exact main_keys_distinct|]. split; [reflexivity|].
  apply (Contains_built Z U32.Comparator 0%Z false
           Comparator_antisym Comparator_trans U32.main_keys).
  - by vm_compute.
  - exact main_keys_distinct.
  - reflexivity.
Defined.

Lemma Insert_then_Contains_witness :
  build U32.Comparator 0%Z false [5%Z; 3%Z] = Ok list53 /\
  distinct U32.Comparator [5%Z; 3%Z] /\
  lt U32.Comparator 0%Z 4%Z /\
  Contains U32.Comparator list53 4%Z = Ok false /\
  exists l',
    Insert U32.Comparator false list53 4%Z = Ok l' /\
    Contains U32.Comparator l' 4%Z = Ok true /\
    forall k2, U32.Comparator k2 4%Z <> 0%Z ->
      Contains U32.Comparator l' k2 = Contains U32.Comparator list53 k2.
Proof.
  assert (Hd : distinct U32.Comparator [5%Z; 3%Z]) by (repeat constructor; done).
  split; [reflexivity|]. split; [exact Hd|].
  split; [reflexivity|]. split; [reflexivity|].
  apply (Insert_then_Contains Z U32.Comparator 0%Z false
           Comparator_antisym Comparator_trans [5%Z; 3%Z] list53 4%Z).
  - reflexivity.
  - exact Hd.
  - reflexivity.
  - reflexivity.
Defined.

Lemma Insert_duplicate_witness :
  exists l,
    build U32.Comparator 0%Z true [5%Z; 3%Z] = Ok l /\
    distinct U32.Comparator [5%Z; 3%Z] /\
    lt U32.Comparator 0%Z 5%Z /\
    Contains U32.Comparator l 5%Z = Ok true /\
    (true = false -> Insert U32.Comparator true l 5%Z = Err AssertFail) /\
    (true = true ->
       exists l' fwd,
         Insert U32.Comparator true l 5%Z = Ok l' /\
         forward_keys true l' = Ok fwd /\
         fwd ≡ₚ 5%Z :: [5%Z; 3%Z] /\ ~ I1 U32.Comparator fwd).
Proof.
  assert (Hd : distinct U32.Comparator [5%Z; 3%Z]) by (repeat constructor; done).
  eexists. split; [reflexivity|]. split; [exact Hd|].
  split; [reflexivity|]. split; [reflexivity|].
  apply (Insert_duplicate Z U32.Comparator 0%Z true
           Comparator_antisym Comparator_trans [5%Z; 3%Z]).
  - reflexivity.
  - exact Hd.
  - reflexivity.
  - reflexivity.
Defined.

Lemma FindGreaterOrEqual_built_witness :
  exists l,
    build U32.Comparator 0%Z false U32.main_keys = Ok l /\
    distinct U32.Comparator U32.main_keys /\
    lt U32.Comparator 0%Z 400%Z /\
    exists x,
      FindGreaterOrEqual U32.Comparator l 400%Z None = Ok (x, None) /\
      (x = None
       <-> Forall (fun k' => lt U32.Comparator k' 400%Z) U32.main_keys) /\
      (forall a, x = Some a ->
         exists n,
           heap l !! a = Some n /\ key n ∈ U32.main_keys /\
           ~ lt U32.Comparator (key n) 400%Z /\
           forall k', k' ∈ U32.main_keys -> ~ lt U32.Comparator k' 400%Z ->
             k' = key n \/ lt U32.Comparator (key n) k').
Proof.
  eexists. split; [by vm_compute|].
  split; [exact main_keys_distinct|]. split; [reflexivity|].
  apply (FindGreaterOrEqual_built Z U32.Comparator 0%Z false
           Comparator_antisym Comparator_trans U32.main_keys).
  - by vm_compute.
  - exact main_keys_distinct.
  - reflexivity.
Defined.

Lemma first_last_extremes_witness :
  exists l,
    build U32.Comparator 0%Z false U32.main_keys = Ok l /\
    distinct U32.Comparator U32.main_keys /\
    U32.main_keys <> [] /\
    exists itf itl kf kl,
      SeekToFirst l Iterator_new = Ok itf /\
      Iterator_key false l itf = Ok kf /\
      SeekToLast l Iterator_new = Ok itl /\
      Iterator_key false l itl = Ok kl /\
      kf ∈ U32.main_keys /\ kl ∈ U32.main_keys /\
      forall k, k ∈ U32.main_keys ->
        (k = kf \/ lt U32.Comparator kf k) /\
        (k = kl \/ lt U32.Comparator k kl).
Proof.
  eexists. split; [by vm_compute|].
  split; [exact main_keys_distinct|]. split; [done|].
  apply (first_last_extremes Z U32.Comparator 0%Z false
           Comparator_antisym Comparator_trans U32.main_keys).
  - by vm_compute.
  - exact main_keys_distinct.
  - done.
Defined.

Lemma Prev_Next_round_trip_witness :
  repr 0%Z list53 nodes53 /\
  I1 U32.Comparator (keys nodes53) /\
  (let* it := Prev U32.Comparator false list53 (mkIterator (Some 1))
   in Next false list53 it)
  = Ok (mkIterator (Some 1)) /\
  (let* it := Next false list53 (mkIterator (Some 2))
   in Prev U32.Comparator false list53 it)
  = Ok (mkIterator (Some 2)).
Proof.
  split; [exact list53_repr|]. split; [exact list53_sorted|].
  apply (Prev_Next_round_trip Z U32.Comparator 0%Z false Comparator_antisym
           list53 nodes53 [] (2, 3%Z) (1, 5%Z) []
           list53_repr list53_sorted).
  reflexivity.
Defined.

Lemma FindLessThan_safe_witness :
  repr 0%Z list53 nodes53 /\
  I1 U32.Comparator (keys nodes53) /\
  5%Z ∈ keys nodes53 /\
  ~ lt U32.Comparator 5%Z 4%Z /\
  exists p,
    FindLessThan U32.Comparator list53 4%Z = Ok p /\
    ((p = head_ list53 /\
      Forall (fun k' => ~ lt U32.Comparator k' 4%Z) (keys nodes53)) \/
     (exists n,
        n ∈ nodes53 /\ p = Some n.1 /\ lt U32.Comparator n.2 4%Z /\
        forall y, y ∈ nodes53 -> lt U32.Comparator y.2 4%Z ->
          y = n \/ lt U32.Comparator y.2 n.2)).
Proof.
  assert (Hin : 5%Z ∈ keys nodes53) by (simpl; right; left).
  assert (Hnlt : ~ lt U32.Comparator 5%Z 4%Z) by (by vm_compute).
  split; [exact list53_repr|]. split; [exact list53_sorted|].
  split; [exact Hin|]. split; [exact Hnlt|].
  exact (FindLessThan_safe Z U32.Comparator 0%Z Comparator_trans
           list53 nodes53 4%Z 5%Z list53_repr list53_sorted Hin Hnlt).
Defined.

Lemma range_for_visits_sorted_witness :
  exists l,
    build U32.Comparator 0%Z false U32.main_keys = Ok l /\
    distinct U32.Comparator U32.main_keys /\
    exists l' out,
      range_for Z false l = Ok (l', out) /\
      heap l' = heap l /\ head_ l' = head_ l /\
      I1 U32.Comparator out /\ out ≡ₚ U32.main_keys /\
      forward_keys false l = Ok out.
Proof.
  eexists. split; [by vm_compute|]. split; [exact main_keys_distinct|].
  apply (range_for_visits_sorted Z U32.Comparator 0%Z false
           Comparator_antisym Comparator_trans U32.main_keys).
  - by vm_compute.
  - exact main_keys_distinct.
Defined.

Lemma Insert_keeps_iterators_witness :
  exists l',
    repr 0%Z list53 nodes53 /\
    (2, 3%Z) ∈ nodes53 /\
    Insert U32.Comparator false list53 4%Z = Ok l' /\
    Iterator_key false l' (mkIterator (Some 2)) = Ok 3%Z /\
    (Next false l' (mkIterator (Some 2))
     = Next false list53 (mkIterator (Some 2)) \/
     Next false l' (mkIterator (Some 2))
     = Ok (mkIterator (Some (length (heap list53))))).
Proof.
  assert (Hin : (2, 3%Z) ∈ nodes53) by left.
  eexists. split; [exact list53_repr|]. split; [exact Hin|].
  split; [reflexivity|].
  apply (Insert_keeps_iterators Z U32.Comparator 0%Z false
           list53 nodes53 4%Z _ (2, 3%Z) list53_repr Hin).
  reflexivity.
Defined.

Lemma Next_steps_forward_witness :
  repr 0%Z list53 nodes53 /\
  I1 U32.Comparator (keys nodes53) /\
  exists it',
    Next false list53 (mkIterator (Some 2)) = Ok it' /\
    node_ it' = first_ptr Z [(1, 5%Z)] /\
    (Valid it' = false <-> [(1, 5%Z)] = []) /\
    (forall m, head [(1, 5%Z)] = Some m ->
       lt U32.Comparator 3%Z m.2 /\
       forall x, x ∈ nodes53 -> lt U32.Comparator 3%Z x.2 ->
         x = m \/ lt U32.Comparator m.2 x.2).
Proof.
  split; [exact list53_repr|]. split; [exact list53_sorted|].
  apply (Next_steps_forward Z U32.Comparator 0%Z false Comparator_antisym
           list53 nodes53 [] (2, 3%Z) [(1, 5%Z)]
           list53_repr list53_sorted).
  reflexivity.
Defined.

Lemma build_counts_witness :
  exists l,
    build U32.Comparator 0%Z false U32.main_keys = Ok l /\
    length (heap l) = S (length U32.main_keys) /\
    exists fwd,
      forward_keys false l = Ok fwd /\ length fwd = length U32.main_keys.
Proof.
  eexists. split; [by vm_compute|].
  apply (build_counts Z U32.Comparator 0%Z false U32.main_keys).
  by vm_compute.
Defined.
